(** * StatsClient: metrics aggregation in front of a StatsD transport

    Shallow embedding of [src/helpers/StatsClient.ts].

    - a JS [number] is an IEEE 754 binary64 value: the kernel's [float];
    - a JS string is a [string] (its UTF-8 bytes; JSON quoting only touches
      bytes below 0x80, so multi-byte characters pass through unchanged);
    - the [Map] holding the metrics is an association list in insertion
      order, which is the order [Map.prototype.entries] iterates in;
    - the [hot-shots] client is outside the repository: it is represented
      by the list of calls handed to it, and by an oracle telling which
      call throws;
    - a tags object is taken by value. The first insertion stores the
      object of the caller itself (line 114), so a caller that changed the
      object afterwards would change the stored tags; there is no such
      step here, and nothing below speaks of stored tags across such a
      change. *)

From Stdlib Require Import String Ascii List Bool Arith Lia PrimFloat DecimalString
  Permutation.
Import ListNotations.
Local Open Scope string_scope.

(** ** JavaScript values *)

Definition number := float.
Bind Scope float_scope with number.

(** Left-to-right sum with the [+] of JS numbers, started at the first
    summand (so that a single [-0] stays [-0]). *)
Definition number_sum (first : number) (others : list number) : number :=
fold_left PrimFloat.add others first.

(** [hot-shots] declares [Tags = { [key: string]: string } | string[]].
    An object is the list of its own enumerable properties in property
    order, the order in which [JSON.stringify] and the spread visit them. *)
Inductive Tags :=
| TagsObject (props : list (string * string))
| TagsArray (items : list string).

Module JSON.

Definition dquote : ascii := "034"%char.

Definition hex_digit (n : nat) : ascii :=
match n with
| 0 => "0" | 1 => "1" | 2 => "2" | 3 => "3" | 4 => "4" | 5 => "5"
| 6 => "6" | 7 => "7" | 8 => "8" | 9 => "9" | 10 => "a" | 11 => "b"
| 12 => "c" | 13 => "d" | 14 => "e" | _ => "f"
end%char.

(** One character of QuoteJSONString (ECMA-262, 25.5.2.3). *)
Definition quote_char (c : ascii) : string :=
let n := nat_of_ascii c in
if Nat.eqb n 8 then "\b"
else if Nat.eqb n 9 then "\t"
else if Nat.eqb n 10 then "\n"
else if Nat.eqb n 12 then "\f"
else if Nat.eqb n 13 then "\r"
else if Nat.eqb n 34 then String "\" (String dquote "")
else if Nat.eqb n 92 then "\\"
else if Nat.ltb n 32 then "\u00" ++ String (hex_digit (n / 16)) (String (hex_digit (n mod 16)) "")
else String c "".

Fixpoint quote_chars (s : string) : string :=
match s with
| EmptyString => ""
| String c rest => quote_char c ++ quote_chars rest
end.

Definition quote (s : string) : string :=
String dquote (quote_chars s ++ String dquote "").

Fixpoint join (parts : list string) : string :=
match parts with
| [] => ""
| [p] => p
| p :: rest => p ++ "," ++ join rest
end.

Definition member (kv : string * string) : string :=
quote (fst kv) ++ ":" ++ quote (snd kv).

(** [JSON.stringify(tags)], without replacer or indentation. [undefined]
    is not serialised: the result is [undefined] again. *)
Definition stringify (v : option Tags) : option string :=
match v with
| None => None
| Some (TagsObject props) => Some ("{" ++ join (map member props) ++ "}")
| Some (TagsArray items) => Some ("[" ++ join (map quote items) ++ "]")
end.

Definition hex_value (c : ascii) : nat :=
let n := nat_of_ascii c in
if Nat.leb 97 n then n - 87 else n - 48.

(** Reads one quoted character back from the front of a text: the left
    inverse of [quote_char], by which the quoting is shown unambiguous. *)
Definition unquote_char (s : string) : option (ascii * string) :=
match s with
| String c rest =>
    if Nat.eqb (nat_of_ascii c) 34 then None
    else if Nat.eqb (nat_of_ascii c) 92 then
      match rest with
      | String e rest =>
          if Ascii.eqb e "b" then Some ("008"%char, rest)
          else if Ascii.eqb e "t" then Some ("009"%char, rest)
          else if Ascii.eqb e "n" then Some ("010"%char, rest)
          else if Ascii.eqb e "f" then Some ("012"%char, rest)
          else if Ascii.eqb e "r" then Some ("013"%char, rest)
          else if Ascii.eqb e "u" then
            match rest with
            | String _ (String _ (String h (String l rest))) =>
                Some (ascii_of_nat (16 * hex_value h + hex_value l), rest)
            | _ => None
            end
          else Some (e, rest)
      | EmptyString => None
      end
    else Some (c, rest)
| EmptyString => None
end.

End JSON.

(** [s + v] where [v] is a string or [undefined]. *)
Definition concat_value (s : string) (v : option string) : string :=
s ++ match v with Some t => t | None => "undefined" end.

Definition index_key (i : nat) : string :=
NilEmpty.string_of_uint (Nat.to_uint i).

Fixpoint array_props (i : nat) (items : list string) : list (string * string) :=
match items with
| [] => []
| x :: rest => (index_key i, x) :: array_props (S i) rest
end.

(** The object literal [{ ...tags }]: a fresh object with the own
    enumerable properties of [tags]; [undefined] spreads to nothing and an
    array spreads to its index properties. *)
Definition spread (v : option Tags) : Tags :=
match v with
| None => TagsObject []
| Some (TagsObject props) => TagsObject props
| Some (TagsArray items) => TagsObject (array_props 0 items)
end.

(** ** The [Map] of the standard library, keyed by strings *)

Module Map.
Section WithValues.
Context {V : Type}.

Definition t := list (string * V).

Definition empty : t := [].

Fixpoint has (k : string) (m : t) : bool :=
match m with
| [] => false
| (k', _) :: rest => if String.eqb k k' then true else has k rest
end.

Fixpoint get (k : string) (m : t) : option V :=
match m with
| [] => None
| (k', v) :: rest => if String.eqb k k' then Some v else get k rest
end.

(** [set] keeps the position of a key that is already there and appends
    a new key at the end. *)
Fixpoint set (k : string) (v : V) (m : t) : t :=
match m with
| [] => [(k, v)]
| (k', v') :: rest =>
    if String.eqb k k' then (k, v) :: rest else (k', v') :: set k v rest
end.

Definition entries (m : t) : list (string * V) := m.

Definition keys (m : t) : list string := map fst m.

(** What every [Map] satisfies: a key occurs once. *)
Definition wf (m : t) : Prop := NoDup (keys m).

End WithValues.
Arguments t : clear implicits.
End Map.

(** ** Data model of [StatsClient.ts] *)

Inductive MetricsType := GAUGE | INCREMENT.

Record MetricOptions := mkMetricOptions {
  metricName : string;
  type : MetricsType;
  value : number;
  tags : option Tags
}.

Definition MetricsSet := Map.t MetricOptions.

(** A call of [client.gauge] or [client.increment]. *)
Inductive Emit :=
| gauge (stat : string) (v : number) (t : Tags)
| increment (stat : string) (v : number) (t : Tags).

(** The [StatsD] client: the options it was built with and the calls made
    on it so far, oldest first. *)
Record StatsD := mkStatsD {
  protocol : option string;
  calls : list Emit
}.

Definition Logger := nat.
Definition Timer := nat.

Record StatsClient := mkStatsClient {
  interval : option Timer;
  metrics : MetricsSet;
  client : StatsD;
  logger : option Logger
}.

Definition with_metrics (this : StatsClient) (m : MetricsSet) : StatsClient :=
{| interval := this.(interval); metrics := m;
   client := this.(client); logger := this.(logger) |}.

Definition with_client (this : StatsClient) (c : StatsD) : StatsClient :=
{| interval := this.(interval); metrics := this.(metrics);
   client := c; logger := this.(logger) |}.

(** ** [addOrUpdateMetrics] *)

(** [metricName + '/' + JSON.stringify(options.tags)], where [metricName]
    is the key of the entry in the [metrics] object. *)
Definition customKey (metricName : string) (options : MetricOptions) : string :=
concat_value (metricName ++ "/") (JSON.stringify options.(tags)).

(** The body of the [forEach] of [addOrUpdateMetrics]. When [has] answers
    true, [get] answers a value (lemma [Map_has_get]); the last branch is
    there for the shape of the source only. *)
Definition addOrUpdateMetric (m : MetricsSet) (entry : string * MetricOptions)
  : MetricsSet :=
let '(metricName, options) := entry in
let customKey := customKey metricName options in
if Map.has customKey m then
  match Map.get customKey m with
  | Some metricOptions =>
      Map.set customKey
        {| metricName := metricName;
           type := metricOptions.(type);
           value := PrimFloat.add metricOptions.(value) options.(value);
           tags := Some (spread options.(tags)) |} m
  | None => m
  end
else
  Map.set customKey
    {| metricName := metricName;
       type := options.(type);
       value := options.(value);
       tags := options.(tags) |} m.

(** [entries] is [Object.entries(metrics)]: the pairs of batch key and
    options of the argument, in property order. *)
Definition addOrUpdateMetrics (entries : list (string * MetricOptions))
  (this : StatsClient) : StatsClient :=
with_metrics this (fold_left addOrUpdateMetric entries this.(metrics)).

(** ** [sendStats] and [resetIncrementMetric] *)

Inductive Error := TransportError | TypeError.

(** How a statement ends: normally, or by an exception that propagates. *)
Inductive completion := Normal | Throw (e : Error).

Section Transport.

(** [throws history call]: whether the client, after the calls of
    [history], throws on [call]. The source installs no error handler and
    catches nothing, so a throw of the client propagates. *)
Variable throws : list Emit -> Emit -> bool.

Definition StatsD_call (c : StatsD) (e : Emit) : StatsD * completion :=
({| protocol := c.(protocol); calls := c.(calls) ++ [e] |},
 if throws c.(calls) e then Throw TransportError else Normal).

(** [this.metrics.get(customKey) as MetricOptions] is [undefined] for a
    missing key, and reading [.type] of it is a [TypeError]. *)
Definition resetIncrementMetric (customKey metricName : string)
  (this : StatsClient) : StatsClient * completion :=
match Map.get customKey this.(metrics) with
| Some metricOptions =>
    (with_metrics this
       (Map.set customKey
          {| metricName := metricName;
             type := metricOptions.(type);
             value := 0%float;
             tags := Some (spread metricOptions.(tags)) |}
          this.(metrics)),
     Normal)
| None => (this, Throw TypeError)
end.

(** The body of the [forEach] of [sendStats]. *)
Definition sendStat (this : StatsClient) (entry : string * MetricOptions)
  : StatsClient * completion :=
let '(customKey, options) := entry in
match options.(type) with
| GAUGE =>
    let (c, r) := StatsD_call this.(client)
      (gauge options.(metricName) options.(value) (spread options.(tags))) in
    (with_client this c, r)
| INCREMENT =>
    let (c, r) := StatsD_call this.(client)
      (increment options.(metricName) options.(value) (spread options.(tags))) in
    match r with
    | Normal => resetIncrementMetric customKey options.(metricName) (with_client this c)
    | Throw e => (with_client this c, Throw e)
    end
end.

(** [Array.prototype.forEach]: an exception of the callback ends the loop. *)
Fixpoint forEach (entries : list (string * MetricOptions)) (this : StatsClient)
  : StatsClient * completion :=
match entries with
| [] => (this, Normal)
| entry :: rest =>
    match sendStat this entry with
    | (this', Normal) => forEach rest this'
    | (this', Throw e) => (this', Throw e)
    end
end.

(** The spread [[...this.metrics.entries()]] copies the entries before the
    loop starts. *)
Definition sendStats (this : StatsClient) : StatsClient * completion :=
forEach (Map.entries this.(metrics)) this.

End Transport.

(** ** [init] and the constructor *)

Record InitOptions := mkInitOptions {
  timerInMs : option number;
  environement : option string;
  opt_logger : option Logger
}.

(** The two notices of [init]; the first one interpolates the designator
    and the interval. *)
Inductive Message :=
| Initialization (environement : option string) (timerInMs : number)
| NoInitialization.

(** The part of the process [init] works on: [process.env.NODE_ENV], the
    static field [StatsClient.instance] (a reference into [objects], the
    [StatsClient] objects built so far), the timers started with
    [setInterval] (the object whose [sendStats] they call and their
    delay), and the [info] calls made on loggers. *)
Record Process := mkProcess {
  NODE_ENV : option string;
  instance : option nat;
  objects : list StatsClient;
  timers : list (nat * number);
  infos : list (Logger * Message)
}.

Definition truthy (s : option string) : bool :=
match s with
| None => false
| Some s => negb (String.eqb s "")
end.

Definition info (l : option Logger) (msg : Message) (p : Process) : Process :=
match l with
| None => p
| Some l =>
    {| NODE_ENV := p.(NODE_ENV); instance := p.(instance);
       objects := p.(objects); timers := p.(timers);
       infos := p.(infos) ++ [(l, msg)] |}
end.

(** [new StatsClient(timerInMs, environement, logger)]: [this.interval] of
    a fresh object is [undefined], so the timer is always started. The
    result is the process with the new object and its reference. *)
Definition new_StatsClient (timerInMs : number) (environement : option string)
  (logger : option Logger) (p : Process) : Process * nat :=
let this := length p.(objects) in
let timer := length p.(timers) in
let obj :=
  {| interval := Some timer;
     metrics := Map.empty;
     client := {| protocol :=
                    match environement with
                    | Some e => if String.eqb e "production" then Some "uds" else None
                    | None => None
                    end;
                  calls := [] |};
     logger := logger |} in
({| NODE_ENV := p.(NODE_ENV); instance := p.(instance);
    objects := p.(objects) ++ [obj];
    timers := p.(timers) ++ [(this, timerInMs)];
    infos := p.(infos) |}, this).

(** [StatsClient.init]: the defaults of the destructured parameter apply
    to an absent ([undefined]) property. *)
Definition init (o : InitOptions) (p : Process) : Process * option nat :=
let timerInMs :=
  match o.(timerInMs) with Some t => t | None => (10 * 60 * 1000)%float end in
let environement :=
  match o.(environement) with Some e => Some e | None => p.(NODE_ENV) end in
let logger := o.(opt_logger) in
if truthy environement then
  let p := info logger (Initialization environement timerInMs) p in
  match p.(instance) with
  | Some i => (p, Some i)
  | None =>
      let (p, i) := new_StatsClient timerInMs environement logger p in
      ({| NODE_ENV := p.(NODE_ENV); instance := Some i;
          objects := p.(objects); timers := p.(timers);
          infos := p.(infos) |}, Some i)
  end
else (info logger NoInitialization p, None).

(** ** Vocabulary of the statements *)

(** What [addOrUpdateMetrics] stores for an entry of the batch, given what
    its key held before. *)
Definition merged (stored : option MetricOptions) (entry : string * MetricOptions)
  : MetricOptions :=
match stored with
| Some metricOptions =>
    {| metricName := fst entry;
       type := metricOptions.(type);
       value := PrimFloat.add metricOptions.(value) (snd entry).(value);
       tags := Some (spread (snd entry).(tags)) |}
| None =>
    {| metricName := fst entry;
       type := (snd entry).(type);
       value := (snd entry).(value);
       tags := (snd entry).(tags) |}
end.

(** The entries of a batch that resolve to the identity [k]. *)
Definition updates_of (k : string) (entries : list (string * MetricOptions))
  : list (string * MetricOptions) :=
filter (fun e => String.eqb k (customKey (fst e) (snd e))) entries.

(** A sequence of [addOrUpdateMetrics] calls, one per batch. *)
Definition update_calls (batches : list (list (string * MetricOptions)))
  (this : StatsClient) : StatsClient :=
fold_left (fun t entries => addOrUpdateMetrics entries t) batches this.

Definition with_name (name : string) (o : MetricOptions) : MetricOptions :=
{| metricName := name; type := o.(type); value := o.(value); tags := o.(tags) |}.

(** The call [sendStats] makes for a stored entry. *)
Definition emit_of (o : MetricOptions) : Emit :=
match o.(type) with
| GAUGE => gauge o.(metricName) o.(value) (spread o.(tags))
| INCREMENT => increment o.(metricName) o.(value) (spread o.(tags))
end.

(** The name a call hands to the transport. *)
Definition stat_of (call : Emit) : string :=
match call with
| gauge stat _ _ => stat
| increment stat _ _ => stat
end.

(** A stored entry once [sendStats] is done with it. *)
Definition flushed (o : MetricOptions) : MetricOptions :=
match o.(type) with
| GAUGE => o
| INCREMENT =>
    {| metricName := o.(metricName); type := o.(type); value := 0%float;
       tags := Some (spread o.(tags)) |}
end.

Definition flushed_entry (e : string * MetricOptions) : string * MetricOptions :=
(fst e, flushed (snd e)).

(** The client, after [history], takes the emits of [entries] one after
    the other without throwing. *)
Fixpoint accepts (throws : list Emit -> Emit -> bool) (history : list Emit)
  (entries : list (string * MetricOptions)) : bool :=
match entries with
| [] => true
| e :: rest =>
    negb (throws history (emit_of (snd e)))
    && accepts throws (history ++ [emit_of (snd e)]) rest
end.

(** The object [this] with the ledger [m] and the client history [h]. *)
Definition flush_state (this : StatsClient) (m : MetricsSet) (h : list Emit)
  : StatsClient :=
{| interval := this.(interval);
   metrics := m;
   client := {| protocol := this.(client).(protocol); calls := h |};
   logger := this.(logger) |}.

Definition emits (entries : list (string * MetricOptions)) : list Emit :=
map (fun e => emit_of (snd e)) entries.

(** What happens to a [StatsClient] between two looks at it. *)
Inductive Op :=
| Update (entries : list (string * MetricOptions))
| Flush.

Definition step (throws : list Emit -> Emit -> bool) (this : StatsClient) (op : Op)
  : StatsClient :=
match op with
| Update entries => addOrUpdateMetrics entries this
| Flush => fst (sendStats throws this)
end.

Definition run (throws : list Emit -> Emit -> bool) (ops : list Op)
  (this : StatsClient) : StatsClient :=
fold_left (step throws) ops this.

(** The designator [init] tests: the argument, else [NODE_ENV]. *)
Definition designator (o : InitOptions) (p : Process) : option string :=
match o.(environement) with Some e => Some e | None => p.(NODE_ENV) end.

Definition inits (os : list InitOptions) (p : Process) : Process :=
fold_left (fun q o => fst (init o q)) os p.

(** ** Vocabulary of the further properties *)

(** Where a reader of a JSON text stands: outside the quoted texts, inside
    one, or just after a backslash inside one. *)
Inductive lex := Outside | Inside | Escaped.

Definition structural (c : ascii) : bool :=
let n := nat_of_ascii c in
Nat.eqb n 123 || Nat.eqb n 125 || Nat.eqb n 91 || Nat.eqb n 93
|| Nat.eqb n 44 || Nat.eqb n 58.

(** Follows a text from a standing point; outside the quoted texts only
    braces, brackets, commas and colons are let through. *)
Fixpoint scan (st : lex) (s : string) : option lex :=
match s with
| EmptyString => Some st
| String c rest =>
    match st with
    | Outside =>
        if Nat.eqb (nat_of_ascii c) 34 then scan Inside rest
        else if structural c then scan Outside rest
        else None
    | Inside =>
        if Nat.eqb (nat_of_ascii c) 34 then scan Outside rest
        else if Nat.eqb (nat_of_ascii c) 92 then scan Escaped rest
        else scan Inside rest
    | Escaped => scan Inside rest
    end
end.

(** The two standing points of two readers that are out of step. *)
Definition out_of_step (a b : lex) : bool :=
match a, b with
| Inside, Outside => true
| Outside, Inside => true
| _, _ => false
end.

(** The entries that resolve to the identity [k] over a sequence of
    operations, oldest first. *)
Fixpoint updates_in (k : string) (ops : list Op) : list (string * MetricOptions) :=
match ops with
| [] => []
| Update entries :: rest => (updates_of k entries ++ updates_in k rest)%list
| Flush :: rest => updates_in k rest
end.

Definition values (us : list (string * MetricOptions)) : list number :=
map (fun u => (snd u).(value)) us.

(** An entry whose key is its stored name, a slash, and the JSON text of
    some tags value. *)
Definition keyed (entry : string * MetricOptions) : Prop :=
exists t : option Tags,
  fst entry = concat_value ((snd entry).(metricName) ++ "/") (JSON.stringify t).

(** The interval [init] uses: the argument, else ten minutes. *)
Definition delay (o : InitOptions) : number :=
match o.(timerInMs) with Some t => t | None => 600000%float end.

(** ** Sample values *)

Definition fresh : StatsClient :=
{| interval := Some 0; metrics := Map.empty;
   client := {| protocol := None; calls := [] |}; logger := None |}.

Definition never (_ : list Emit) (_ : Emit) : bool := false.
Definition always (_ : list Emit) (_ : Emit) : bool := true.

Definition rejects_increments (_ : list Emit) (call : Emit) : bool :=
match call with
| increment _ _ _ => true
| gauge _ _ _ => false
end.

Definition shard1 : Tags := TagsObject [("shard", "1")].

Definition queueDepth (v : number) : MetricOptions :=
{| metricName := "queueDepth"; type := GAUGE; value := v; tags := Some shard1 |}.

Definition reqs (v : number) : MetricOptions :=
{| metricName := "reqs"; type := INCREMENT; value := v; tags := None |}.

Definition reqs_empty (v : number) : MetricOptions :=
{| metricName := "reqs"; type := INCREMENT; value := v;
   tags := Some (TagsObject []) |}.

Definition ab : Tags := TagsObject [("a", "1"); ("b", "2")].
Definition ba : Tags := TagsObject [("b", "2"); ("a", "1")].

Definition hits (t : Tags) (v : number) : MetricOptions :=
{| metricName := "hits"; type := INCREMENT; value := v; tags := Some t |}.

(** A gauge followed by a counter, as two updates leave them. *)
Definition two_entries : StatsClient :=
addOrUpdateMetrics [("reqs", reqs 5%float)]
  (addOrUpdateMetrics [("queueDepth", queueDepth 4%float)] fresh).

Definition off : Process :=
{| NODE_ENV := None; instance := None; objects := []; timers := []; infos := [] |}.

Definition production : InitOptions :=
{| timerInMs := None; environement := Some "production"; opt_logger := None |}.

Definition no_designator : InitOptions :=
{| timerInMs := None; environement := Some ""; opt_logger := None |}.

(** ** Readings of the specification that are compared with the code *)

(** An update of kind Gauge for a stored identity replaces the value. *)
Definition gauge_update_replaces (this : StatsClient) (n : string)
  (o : MetricOptions) : Prop :=
forall e,
  Map.get (customKey n o) this.(metrics) = Some e ->
  o.(type) = GAUGE ->
  exists e',
    Map.get (customKey n o) (addOrUpdateMetrics [(n, o)] this).(metrics) = Some e'
    /\ e'.(value) = o.(value).

(** The identity and the stored name come from the [metricName] field of
    the options, not from the batch key. *)
Definition stores_own_name (this : StatsClient) (entry : string * MetricOptions)
  : Prop :=
exists e,
  Map.get (customKey (snd entry).(metricName) (snd entry))
    (addOrUpdateMetrics [entry] this).(metrics) = Some e
  /\ e.(metricName) = (snd entry).(metricName).

(** Tag maps with the same pairs give the same identity, whatever the
    order of the pairs. *)
Definition tag_order_irrelevant (n : string) (o1 o2 : MetricOptions) : Prop :=
forall ps1 ps2,
  o1.(tags) = Some (TagsObject ps1) ->
  o2.(tags) = Some (TagsObject ps2) ->
  Permutation ps1 ps2 ->
  customKey n o1 = customKey n o2.

(** When the emit of one entry throws, the entries after it are still
    processed: their emit is attempted and the counters among them are
    reset. *)
Definition remaining_still_processed (throws : list Emit -> Emit -> bool)
  (this : StatsClient) : Prop :=
forall pre k o post,
  this.(metrics) = (pre ++ (k, o) :: post)%list ->
  throws (this.(client).(calls) ++ emits pre)%list (emit_of o) = true ->
  let this' := fst (sendStats throws this) in
  forall k' o',
    In (k', o') post ->
    In (emit_of o') this'.(client).(calls)
    /\ (o'.(type) = INCREMENT ->
        exists e, Map.get k' this'.(metrics) = Some e /\ e.(value) = 0%float).

(** After a flush every counter is zero, whatever the transport did. *)
Definition counters_zero_after_flush (throws : list Emit -> Emit -> bool)
  (this : StatsClient) : Prop :=
forall k e,
  Map.get k (fst (sendStats throws this)).(metrics) = Some e ->
  e.(type) = INCREMENT ->
  e.(value) = 0%float.

(** Once a first [init] with a truthy designator has built the instance,
    a later [init] returns that instance, whatever its arguments. *)
Definition later_init_returns_instance (p : Process) (first later : InitOptions)
  : Prop :=
p.(instance) = None ->
truthy (designator first p) = true ->
exists i,
  snd (init first p) = Some i
  /\ snd (init later (fst (init first p))) = Some i.

(** * Properties *)

(** ** Strings and the [Map] *)

Lemma append_cancel (p a b : string) : p ++ a = p ++ b -> a = b.
Proof.
induction p as [|c p IH]; simpl; intro H.
- exact H.
- injection H as H. auto.
Qed.

Lemma append_assoc (a b c : string) : (a ++ b) ++ c = a ++ b ++ c.
Proof.
induction a as [|x a IH]; simpl; [reflexivity | now rewrite IH].
Qed.

Section MapFacts.
Context {V : Type}.
Implicit Types (m : Map.t V) (k : string) (v : V).

Lemma Map_has_get k m :
  Map.has k m = match Map.get k m with Some _ => true | None => false end.
Proof.
induction m as [|[k' v'] m IH]; simpl; [reflexivity|].
destruct (String.eqb k k'); [reflexivity | exact IH].
Qed.

Lemma Map_get_set_same k v m : Map.get k (Map.set k v m) = Some v.
Proof.
induction m as [|[k' v'] m IH]; simpl.
- now rewrite String.eqb_refl.
- destruct (String.eqb k k') eqn:E; simpl.
  + now rewrite String.eqb_refl.
  + now rewrite E.
Qed.

Lemma Map_get_set_other k k' v m :
  k <> k' -> Map.get k (Map.set k' v m) = Map.get k m.
Proof.
intro Hne. apply String.eqb_neq in Hne.
induction m as [|[k2 v2] m IH]; simpl.
- now rewrite Hne.
- destruct (String.eqb k' k2) eqn:E; simpl.
  + apply String.eqb_eq in E. subst k2. now rewrite Hne.
  + now rewrite IH.
Qed.

Lemma Map_get_set k k' v m :
  Map.get k (Map.set k' v m) = if String.eqb k k' then Some v else Map.get k m.
Proof.
destruct (String.eqb k k') eqn:E.
- apply String.eqb_eq in E. subst. apply Map_get_set_same.
- apply String.eqb_neq in E. now apply Map_get_set_other.
Qed.

Lemma Map_keys_set k v m :
  Map.keys (Map.set k v m) = if Map.has k m then Map.keys m else (Map.keys m ++ [k])%list.
Proof.
induction m as [|[k' v'] m IH]; simpl; [reflexivity|].
destruct (String.eqb k k') eqn:E; simpl.
- apply String.eqb_eq in E. now subst.
- change (k' :: Map.keys (Map.set k v m) =
          (if Map.has k m then k' :: Map.keys m else k' :: Map.keys m ++ [k])%list).
  rewrite IH. now destruct (Map.has k m).
Qed.

Lemma Map_has_In k m : Map.has k m = true <-> In k (Map.keys m).
Proof.
induction m as [|[k' v'] m IH]; simpl.
- split; [discriminate | tauto].
- destruct (String.eqb k k') eqn:E.
  + apply String.eqb_eq in E. subst. tauto.
  + apply String.eqb_neq in E. rewrite IH. split; [tauto|].
    intros [H|H]; [congruence | exact H].
Qed.

Lemma Map_wf_set k v m : Map.wf m -> Map.wf (Map.set k v m).
Proof.
unfold Map.wf. intro Hwf. rewrite Map_keys_set.
destruct (Map.has k m) eqn:E; [exact Hwf|].
apply NoDup_app; [exact Hwf | repeat constructor; simpl; tauto |].
intros x Hx [Hk|[]]. subst x.
apply Map_has_In in Hx. congruence.
Qed.

End MapFacts.

(** ** [addOrUpdateMetrics] *)

Lemma float_neq (a b : float) :
  PrimFloat.eqb a b = false -> PrimFloat.eqb b b = true -> a <> b.
Proof. intros H1 H2 E. rewrite E in H1. congruence. Qed.

Lemma addOrUpdateMetric_set m e :
  addOrUpdateMetric m e =
  Map.set (customKey (fst e) (snd e))
    (merged (Map.get (customKey (fst e) (snd e)) m) e) m.
Proof.
destruct e as [n o]. unfold addOrUpdateMetric, merged. simpl.
rewrite Map_has_get.
destruct (Map.get (customKey n o) m); reflexivity.
Qed.

Lemma get_addOrUpdateMetric k m e :
  Map.get k (addOrUpdateMetric m e) =
  if String.eqb k (customKey (fst e) (snd e))
  then Some (merged (Map.get k m) e) else Map.get k m.
Proof.
rewrite addOrUpdateMetric_set, Map_get_set.
destruct (String.eqb k (customKey (fst e) (snd e))) eqn:E; [|reflexivity].
apply String.eqb_eq in E. now subst k.
Qed.

(** The entry under [k] after a batch: the entries of the batch that
    resolve to [k], merged in order into what was stored. *)
Lemma get_addOrUpdateMetrics k entries (this : StatsClient) :
  Map.get k (addOrUpdateMetrics entries this).(metrics) =
  fold_left (fun s e => Some (merged s e)) (updates_of k entries)
    (Map.get k this.(metrics)).
Proof.
unfold addOrUpdateMetrics. simpl.
generalize this.(metrics) as m.
induction entries as [|e entries IH]; intro m; simpl; [reflexivity|].
rewrite IH, get_addOrUpdateMetric.
destruct (String.eqb k (customKey (fst e) (snd e))); reflexivity.
Qed.

Lemma get_update_calls k batches (this : StatsClient) :
  Map.get k (update_calls batches this).(metrics) =
  fold_left (fun s e => Some (merged s e)) (concat (map (updates_of k) batches))
    (Map.get k this.(metrics)).
Proof.
unfold update_calls. revert this.
induction batches as [|b batches IH]; intro this; simpl; [reflexivity|].
rewrite IH, get_addOrUpdateMetrics, fold_left_app. reflexivity.
Qed.

(** Merging into a stored entry keeps its kind and adds the values. *)
Lemma merged_onto_stored us e0 :
  exists e,
    fold_left (fun s u => Some (merged s u)) us (Some e0) = Some e
    /\ e.(type) = e0.(type)
    /\ e.(value) = number_sum e0.(value) (map (fun u => (snd u).(value)) us).
Proof.
revert e0. induction us as [|u us IH]; intro e0; simpl.
- exists e0. auto.
- destruct (IH (merged (Some e0) u)) as (e & He & Ht & Hv).
  exists e. repeat split; assumption.
Qed.

(** A run of updates onto a stored entry, a counter just reset by a flush
    for instance, continues the sum from the stored value. *)
Lemma updates_sum_onto_stored (this : StatsClient) k batches e0 :
  Map.get k this.(metrics) = Some e0 ->
  exists e,
    Map.get k (update_calls batches this).(metrics) = Some e
    /\ e.(type) = e0.(type)
    /\ e.(value) =
       number_sum e0.(value)
         (map (fun u => (snd u).(value)) (concat (map (updates_of k) batches))).
Proof.
intro H. rewrite get_update_calls, H. apply merged_onto_stored.
Qed.

Lemma get_update_one (this : StatsClient) n o :
  Map.get (customKey n o) (addOrUpdateMetrics [(n, o)] this).(metrics) =
  Some (merged (Map.get (customKey n o) this.(metrics)) (n, o)).
Proof.
rewrite get_addOrUpdateMetrics. unfold updates_of. simpl.
now rewrite String.eqb_refl.
Qed.

(** C1, as amended: an update for an identity that is already stored adds
    its value to the stored one and keeps the stored kind, for a gauge as
    for a counter. *)
Theorem update_adds_to_stored (this : StatsClient) n o e :
  Map.get (customKey n o) this.(metrics) = Some e ->
  Map.get (customKey n o) (addOrUpdateMetrics [(n, o)] this).(metrics) =
  Some {| metricName := n;
          type := e.(type);
          value := PrimFloat.add e.(value) o.(value);
          tags := Some (spread o.(tags)) |}.
Proof.
intro H. now rewrite get_update_one, H.
Qed.

Lemma update_adds_to_stored_witness :
  Map.get (customKey "y" (queueDepth 7))
    (addOrUpdateMetrics [("y", queueDepth 7)]
       (addOrUpdateMetrics [("y", queueDepth 4)] fresh)).(metrics) =
  Some {| metricName := "y"; type := GAUGE; value := 11%float;
          tags := Some shard1 |}.
Proof.
exact (update_adds_to_stored
         (addOrUpdateMetrics [("y", queueDepth 4)] fresh) "y" (queueDepth 7)
         {| metricName := "y"; type := GAUGE; value := 4%float;
            tags := Some shard1 |} eq_refl).
Defined.

(** C1, as stated, fails: a gauge stored with 4 and updated with 7 holds
    11 afterwards, not 7. *)
Lemma gauge_update_replaces_fails :
  ~ gauge_update_replaces (addOrUpdateMetrics [("y", queueDepth 4)] fresh)
      "y" (queueDepth 7).
Proof.
intro H.
destruct (H {| metricName := "y"; type := GAUGE; value := 4%float;
               tags := Some shard1 |} eq_refl eq_refl) as (e' & Hget & Hval).
vm_compute in Hget. injection Hget as <-. simpl in Hval.
revert Hval. apply float_neq; reflexivity.
Qed.

Lemma addOrUpdateMetric_with_name m n o name :
  addOrUpdateMetric m (n, with_name name o) = addOrUpdateMetric m (n, o).
Proof. reflexivity. Qed.

(** C2, as amended: the batch key is the metric name. It forms the
    identity, is stored as [metricName] and is the name of the later
    emit; the [metricName] field of the options is never read, so that
    rewriting it in any way changes nothing. *)
Theorem batch_key_names_the_metric (this : StatsClient)
  (entries : list (string * MetricOptions))
  (rename : string -> MetricOptions -> string) (n : string) (o : MetricOptions) :
  addOrUpdateMetrics
    (map (fun e => (fst e, with_name (rename (fst e) (snd e)) (snd e))) entries)
    this
  = addOrUpdateMetrics entries this
  /\ exists e,
       Map.get (customKey n o) (addOrUpdateMetrics [(n, o)] this).(metrics) = Some e
       /\ e.(metricName) = n
       /\ stat_of (emit_of e) = n.
Proof.
split.
- unfold addOrUpdateMetrics. f_equal.
  generalize this.(metrics) as m.
  induction entries as [|[n' o'] entries IH]; intro m; [reflexivity|].
  cbn [map fold_left fst snd].
  rewrite addOrUpdateMetric_with_name. apply IH.
- rewrite get_addOrUpdateMetrics. unfold updates_of. simpl.
  rewrite String.eqb_refl. simpl.
  eexists. split; [reflexivity|].
  unfold emit_of.
  destruct (Map.get (customKey n o) this.(metrics)) as [stored|]; simpl.
  + destruct stored.(type); auto.
  + destruct o.(type); auto.
Qed.

(** C2, as stated, fails: the entry [x: {metricName: "reqs", ...}] is
    stored under the identity of ["x"], and nothing is stored for
    ["reqs"]. *)
Lemma stores_own_name_fails : ~ stores_own_name fresh ("x", reqs 1).
Proof.
intros (e & Hget & _). vm_compute in Hget. discriminate.
Qed.

(** C6: a run of updates for one identity that is not stored yet, all of
    kind Counter and without a flush in between, leaves an entry of kind
    Counter whose value is the sum of the values, added from left to
    right. *)
Theorem counter_updates_sum (this : StatsClient) (k : string)
  (batches : list (list (string * MetricOptions)))
  (first : string * MetricOptions) (others : list (string * MetricOptions)) :
  Map.get k this.(metrics) = None ->
  concat (map (updates_of k) batches) = first :: others ->
  Forall (fun u => (snd u).(type) = INCREMENT) (first :: others) ->
  exists e,
    Map.get k (update_calls batches this).(metrics) = Some e
    /\ e.(type) = INCREMENT
    /\ e.(value) =
       number_sum (snd first).(value) (map (fun u => (snd u).(value)) others).
Proof.
intros Habsent Hus Hkind.
rewrite get_update_calls, Habsent, Hus. simpl.
destruct (merged_onto_stored others (merged None first)) as (e & He & Ht & Hv).
exists e. repeat split; [exact He | | exact Hv].
rewrite Ht. simpl. now inversion Hkind.
Qed.

Lemma counter_updates_sum_witness :
  exists e,
    Map.get "x/undefined"
      (update_calls
         [[("x", reqs 1)]; [("x", reqs 1)]; [("x", reqs 1)];
          [("x", reqs 1)]; [("x", reqs 1)]] fresh).(metrics) = Some e
    /\ e.(type) = INCREMENT
    /\ e.(value) = 5%float.
Proof.
apply (counter_updates_sum fresh "x/undefined"
         [[("x", reqs 1)]; [("x", reqs 1)]; [("x", reqs 1)];
          [("x", reqs 1)]; [("x", reqs 1)]]
         ("x", reqs 1)
         [("x", reqs 1); ("x", reqs 1); ("x", reqs 1); ("x", reqs 1)]).
- reflexivity.
- reflexivity.
- repeat constructor.
Defined.

(** ** [sendStats] *)

Section MapFactsMore.
Context {V : Type}.
Implicit Types (m : Map.t V) (k : string) (v : V).

Lemma Map_set_get_id k v m : Map.get k m = Some v -> Map.set k v m = m.
Proof.
induction m as [|[k' v'] m IH]; simpl; [discriminate|].
destruct (String.eqb k k') eqn:E.
- apply String.eqb_eq in E. intros [= ->]. now subst.
- intro H. now rewrite IH.
Qed.

Lemma Map_get_app k (m1 m2 : Map.t V) :
  Map.get k (m1 ++ m2)%list =
  match Map.get k m1 with Some v => Some v | None => Map.get k m2 end.
Proof.
induction m1 as [|[k' v'] m1 IH]; simpl; [reflexivity|].
destruct (String.eqb k k'); [reflexivity | exact IH].
Qed.

Lemma Map_get_absent k m : ~ In k (Map.keys m) -> Map.get k m = None.
Proof.
intro H. destruct (Map.get k m) eqn:E; [|reflexivity].
exfalso. apply H. apply Map_has_In. now rewrite Map_has_get, E.
Qed.

Lemma Map_set_app_absent k v (m1 m2 : Map.t V) :
  ~ In k (Map.keys m1) ->
  Map.set k v (m1 ++ m2)%list = (m1 ++ Map.set k v m2)%list.
Proof.
induction m1 as [|[k' v'] m1 IH]; simpl; [reflexivity|].
intro H. destruct (String.eqb k k') eqn:E.
- apply String.eqb_eq in E. exfalso. apply H. now left.
- rewrite IH; [reflexivity|]. intro Hin. apply H. now right.
Qed.

End MapFactsMore.

Lemma Map_get_flushed k (m : MetricsSet) :
  Map.get k (map flushed_entry m) = option_map flushed (Map.get k m).
Proof.
induction m as [|[k' o] m IH]; simpl; [reflexivity|].
destruct (String.eqb k k'); [reflexivity | exact IH].
Qed.

Lemma flushed_type o : (flushed o).(type) = o.(type).
Proof. unfold flushed. destruct o.(type) eqn:E; simpl; congruence. Qed.

Lemma flushed_gauge o : o.(type) = GAUGE -> flushed o = o.
Proof. unfold flushed. now intros ->. Qed.

Lemma flushed_counter o : o.(type) = INCREMENT -> (flushed o).(value) = 0%float.
Proof. unfold flushed. now intros ->. Qed.

Section FlushFacts.
Variable throws : list Emit -> Emit -> bool.

Lemma sendStat_thrown (this : StatsClient) k o :
  throws this.(client).(calls) (emit_of o) = true ->
  sendStat throws this (k, o) =
  (flush_state this this.(metrics) (this.(client).(calls) ++ [emit_of o]),
   Throw TransportError).
Proof.
unfold sendStat, emit_of, StatsD_call.
destruct o.(type); intros ->; reflexivity.
Qed.

Lemma sendStat_accepted (this : StatsClient) k o :
  Map.get k this.(metrics) = Some o ->
  throws this.(client).(calls) (emit_of o) = false ->
  sendStat throws this (k, o) =
  (flush_state this (Map.set k (flushed o) this.(metrics))
     (this.(client).(calls) ++ [emit_of o]),
   Normal).
Proof.
unfold sendStat, emit_of, flushed, StatsD_call, resetIncrementMetric.
destruct o.(type) eqn:Ht; intros Hget ->.
- now rewrite (Map_set_get_id _ _ _ Hget).
- simpl. rewrite Hget, Ht. reflexivity.
Qed.

(** The loop over the entries that are left, [todo], when those before
    them, [done], have been dealt with. *)
Lemma forEach_accepted (todo : list (string * MetricOptions)) :
  forall (done : MetricsSet) (this : StatsClient),
  this.(metrics) = (done ++ todo)%list ->
  Map.wf (done ++ todo)%list ->
  accepts throws this.(client).(calls) todo = true ->
  forEach throws todo this =
  (flush_state this (done ++ map flushed_entry todo)%list
     (this.(client).(calls) ++ emits todo)%list,
   Normal).
Proof.
induction todo as [|[k o] todo IH]; intros done this Hm Hwf Hacc.
- destruct this as [i m [pr h] l]. simpl in *.
  rewrite app_nil_r in Hm. subst m.
  unfold flush_state, emits. simpl. now rewrite !app_nil_r.
- simpl in Hacc. apply andb_prop in Hacc as [Hhead Hrest].
  apply negb_true_iff in Hhead.
  assert (Hk : ~ In k (Map.keys done)).
  { unfold Map.wf, Map.keys in Hwf. rewrite map_app in Hwf.
    intro Hin. apply NoDup_remove_2 in Hwf. apply Hwf.
    apply in_or_app. now left. }
  assert (Hget : Map.get k this.(metrics) = Some o).
  { rewrite Hm, Map_get_app, (Map_get_absent _ _ Hk). simpl.
    now rewrite String.eqb_refl. }
  cbn [forEach]. rewrite (sendStat_accepted _ _ _ Hget Hhead).
  rewrite Hm, (Map_set_app_absent _ _ _ _ Hk). simpl Map.set.
  rewrite String.eqb_refl.
  rewrite (IH (done ++ [(k, flushed o)])%list).
  + unfold flush_state, emits. simpl. now rewrite <- !app_assoc.
  + simpl. now rewrite <- app_assoc.
  + unfold Map.wf, Map.keys in *. rewrite <- app_assoc. simpl.
    rewrite map_app in *. exact Hwf.
  + exact Hrest.
Qed.

Lemma forEach_thrown (pre : list (string * MetricOptions)) :
  forall (done : MetricsSet) (this : StatsClient) k o post,
  this.(metrics) = (done ++ pre ++ (k, o) :: post)%list ->
  Map.wf (done ++ pre ++ (k, o) :: post)%list ->
  accepts throws this.(client).(calls) pre = true ->
  throws (this.(client).(calls) ++ emits pre)%list (emit_of o) = true ->
  forEach throws (pre ++ (k, o) :: post)%list this =
  (flush_state this (done ++ map flushed_entry pre ++ (k, o) :: post)%list
     (this.(client).(calls) ++ emits pre ++ [emit_of o])%list,
   Throw TransportError).
Proof.
induction pre as [|[k1 o1] pre IH]; intros done this k o post Hm Hwf Hacc Hthrow.
- unfold emits in Hthrow. cbn [map] in Hthrow. rewrite app_nil_r in Hthrow.
  cbn [app forEach]. rewrite (sendStat_thrown _ _ _ Hthrow). now rewrite Hm.
- simpl in Hacc. apply andb_prop in Hacc as [Hhead Hrest].
  apply negb_true_iff in Hhead.
  assert (Hk : ~ In k1 (Map.keys done)).
  { unfold Map.wf, Map.keys in Hwf. rewrite map_app in Hwf.
    intro Hin. simpl in Hwf. apply NoDup_remove_2 in Hwf. apply Hwf.
    apply in_or_app. now left. }
  assert (Hget : Map.get k1 this.(metrics) = Some o1).
  { rewrite Hm, Map_get_app, (Map_get_absent _ _ Hk). simpl.
    now rewrite String.eqb_refl. }
  cbn [forEach app]. rewrite (sendStat_accepted _ _ _ Hget Hhead).
  rewrite Hm, (Map_set_app_absent _ _ _ _ Hk). simpl Map.set.
  rewrite String.eqb_refl.
  rewrite (IH (done ++ [(k1, flushed o1)])%list _ k o post).
  + unfold flush_state, emits. simpl. now rewrite <- !app_assoc.
  + simpl. now rewrite <- app_assoc.
  + unfold Map.wf, Map.keys in *. rewrite <- app_assoc. simpl.
    rewrite map_app in *. exact Hwf.
  + exact Hrest.
  + simpl. unfold emits in *. simpl in Hthrow. now rewrite <- app_assoc.
Qed.

(** Either the client takes every emit, or there is a first one it
    throws on. *)
Lemma accepts_or_first_throw (entries : list (string * MetricOptions)) :
  forall h,
  accepts throws h entries = true
  \/ exists pre k o post,
       entries = (pre ++ (k, o) :: post)%list
       /\ accepts throws h pre = true
       /\ throws (h ++ emits pre)%list (emit_of o) = true.
Proof.
induction entries as [|[k o] entries IH]; intro h; [now left|].
simpl. destruct (throws h (emit_of o)) eqn:E.
- right. exists [], k, o, entries. simpl. now rewrite app_nil_r.
- destruct (IH (h ++ [emit_of o])%list) as [Hacc | (pre & k' & o' & post & -> & Hacc & Hthrow)].
  + now left.
  + right. exists ((k, o) :: pre), k', o', post. simpl.
    rewrite E. simpl. rewrite <- app_assoc in Hthrow. auto.
Qed.

End FlushFacts.

Lemma sendStats_accepted throws (this : StatsClient) :
  Map.wf this.(metrics) ->
  accepts throws this.(client).(calls) this.(metrics) = true ->
  sendStats throws this =
  (flush_state this (map flushed_entry this.(metrics))
     (this.(client).(calls) ++ emits this.(metrics))%list,
   Normal).
Proof.
intros Hwf Hacc. unfold sendStats, Map.entries.
exact (forEach_accepted throws this.(metrics) [] this eq_refl Hwf Hacc).
Qed.

Lemma sendStats_thrown throws (this : StatsClient) pre k o post :
  Map.wf this.(metrics) ->
  this.(metrics) = (pre ++ (k, o) :: post)%list ->
  accepts throws this.(client).(calls) pre = true ->
  throws (this.(client).(calls) ++ emits pre)%list (emit_of o) = true ->
  sendStats throws this =
  (flush_state this (map flushed_entry pre ++ (k, o) :: post)%list
     (this.(client).(calls) ++ emits pre ++ [emit_of o])%list,
   Throw TransportError).
Proof.
intros Hwf Hm Hacc Hthrow. unfold sendStats, Map.entries.
rewrite Hm in Hwf |- * at 1.
exact (forEach_thrown throws pre [] this k o post Hm Hwf Hacc Hthrow).
Qed.

(** C4, as amended: the entries are processed in the order of the ledger
    up to the first emit that throws. The exception ends the cycle there:
    the entries before it have had their emit and their reset, the entry
    whose emit threw and the entries after it are left as they were, and
    no emit is attempted for the entries after it. *)
Theorem flush_stops_at_first_throw throws (this : StatsClient)
  (pre : list (string * MetricOptions)) (k : string) (o : MetricOptions)
  (post : list (string * MetricOptions)) :
  Map.wf this.(metrics) ->
  this.(metrics) = (pre ++ (k, o) :: post)%list ->
  accepts throws this.(client).(calls) pre = true ->
  throws (this.(client).(calls) ++ emits pre)%list (emit_of o) = true ->
  sendStats throws this =
  (flush_state this (map flushed_entry pre ++ (k, o) :: post)%list
     (this.(client).(calls) ++ emits pre ++ [emit_of o])%list,
   Throw TransportError).
Proof.
exact (sendStats_thrown throws this pre k o post).
Qed.

Lemma flush_stops_at_first_throw_witness :
  sendStats rejects_increments
    (addOrUpdateMetrics [("hits", hits ab 3)] two_entries) =
  (flush_state two_entries
     [(customKey "queueDepth" (queueDepth 4), queueDepth 4);
      ("reqs/undefined", reqs 5);
      (customKey "hits" (hits ab 3), hits ab 3)]
     [gauge "queueDepth" 4 shard1; increment "reqs" 5 (TagsObject [])],
   Throw TransportError).
Proof.
apply (flush_stops_at_first_throw rejects_increments
         (addOrUpdateMetrics [("hits", hits ab 3)] two_entries)
         [(customKey "queueDepth" (queueDepth 4), queueDepth 4)]
         "reqs/undefined" (reqs 5)
         [(customKey "hits" (hits ab 3), hits ab 3)]).
- unfold Map.wf. vm_compute. repeat constructor; simpl; intuition discriminate.
- reflexivity.
- reflexivity.
- reflexivity.
Defined.

(** C4, as stated, fails: when the first emit throws, the counter after
    it gets no emit. *)
Lemma remaining_still_processed_fails :
  ~ remaining_still_processed always two_entries.
Proof.
intro H.
destruct (H [] _ (queueDepth 4) [("reqs/undefined", reqs 5)] eq_refl eq_refl
            "reqs/undefined" (reqs 5) (or_introl eq_refl)) as [Hin _].
vm_compute in Hin. destruct Hin as [Hin | []]. discriminate.
Qed.

(** C5, as amended: after a flush cycle that completes, no emit having
    thrown, every entry of kind Counter has value zero, whatever it held
    before. *)
Theorem counters_zero_after_completed_flush throws (this this' : StatsClient)
  (k : string) (e : MetricOptions) :
  Map.wf this.(metrics) ->
  sendStats throws this = (this', Normal) ->
  Map.get k this'.(metrics) = Some e ->
  e.(type) = INCREMENT ->
  e.(value) = 0%float.
Proof.
intros Hwf Hrun Hget Hkind.
destruct (accepts_or_first_throw throws this.(metrics) this.(client).(calls))
  as [Hacc | (pre & k' & o' & post & Hm & Hacc & Hthrow)].
- rewrite (sendStats_accepted _ _ Hwf Hacc) in Hrun.
  injection Hrun as <-. simpl in Hget.
  rewrite Map_get_flushed in Hget.
  destruct (Map.get k this.(metrics)) as [o|]; [|discriminate].
  injection Hget as <-.
  apply flushed_counter. now rewrite flushed_type in Hkind.
- rewrite (sendStats_thrown _ _ _ _ _ _ Hwf Hm Hacc Hthrow) in Hrun.
  discriminate.
Qed.

Lemma counters_zero_after_completed_flush_witness :
  let this' :=
    flush_state two_entries
      [(customKey "queueDepth" (queueDepth 4), queueDepth 4);
       ("reqs/undefined", flushed (reqs 5))]
      [gauge "queueDepth" 4 shard1; increment "reqs" 5 (TagsObject [])] in
  sendStats never two_entries = (this', Normal)
  /\ Map.get "reqs/undefined" this'.(metrics) = Some (flushed (reqs 5))
  /\ (flushed (reqs 5)).(value) = 0%float.
Proof.
intro this'. split; [reflexivity|]. split; [reflexivity|].
apply (counters_zero_after_completed_flush never two_entries this'
         "reqs/undefined").
- unfold Map.wf. vm_compute. repeat constructor; simpl; intuition discriminate.
- reflexivity.
- reflexivity.
- reflexivity.
Defined.

(** C5, as stated, fails: a counter whose emit throws keeps its value. *)
Lemma counters_zero_after_flush_fails :
  ~ counters_zero_after_flush rejects_increments two_entries.
Proof.
intro H. specialize (H "reqs/undefined" (reqs 5) eq_refl eq_refl).
revert H. apply float_neq; reflexivity.
Qed.

(** C7: a flush cycle leaves every entry of kind Gauge as it is, whether
    the cycle completes or an emit throws. *)
Theorem gauge_unchanged_by_flush throws (this : StatsClient) (k : string)
  (e : MetricOptions) :
  Map.wf this.(metrics) ->
  Map.get k this.(metrics) = Some e ->
  e.(type) = GAUGE ->
  Map.get k (fst (sendStats throws this)).(metrics) = Some e.
Proof.
intros Hwf Hget Hkind.
destruct (accepts_or_first_throw throws this.(metrics) this.(client).(calls))
  as [Hacc | (pre & k' & o' & post & Hm & Hacc & Hthrow)].
- rewrite (sendStats_accepted _ _ Hwf Hacc). simpl.
  rewrite Map_get_flushed, Hget. simpl. now rewrite flushed_gauge.
- rewrite (sendStats_thrown _ _ _ _ _ _ Hwf Hm Hacc Hthrow). simpl.
  rewrite Hm, Map_get_app in Hget.
  rewrite Map_get_app, Map_get_flushed.
  destruct (Map.get k pre) as [o|].
  + injection Hget as ->. simpl. now rewrite flushed_gauge.
  + exact Hget.
Qed.

Lemma gauge_unchanged_by_flush_witness :
  Map.get (customKey "queueDepth" (queueDepth 4))
    (fst (sendStats never two_entries)).(metrics) = Some (queueDepth 4).
Proof.
apply (gauge_unchanged_by_flush never two_entries).
- unfold Map.wf. vm_compute. repeat constructor; simpl; intuition discriminate.
- reflexivity.
- reflexivity.
Defined.

(** ** The ledger stays a [Map] *)

Lemma addOrUpdateMetrics_wf entries (this : StatsClient) :
  Map.wf this.(metrics) -> Map.wf (addOrUpdateMetrics entries this).(metrics).
Proof.
unfold addOrUpdateMetrics. simpl. generalize this.(metrics) as m.
induction entries as [|e entries IH]; intros m Hwf; simpl; [exact Hwf|].
apply IH. rewrite addOrUpdateMetric_set. now apply Map_wf_set.
Qed.

Lemma sendStat_wf throws (this : StatsClient) entry :
  Map.wf this.(metrics) -> Map.wf (fst (sendStat throws this entry)).(metrics).
Proof.
intro Hwf. destruct entry as [k o].
unfold sendStat, StatsD_call, resetIncrementMetric.
destruct o.(type); simpl; [exact Hwf|].
destruct (throws _ _); simpl; [exact Hwf|].
destruct (Map.get k this.(metrics)); simpl; [|exact Hwf].
now apply Map_wf_set.
Qed.

Lemma forEach_wf throws entries :
  forall this : StatsClient,
  Map.wf this.(metrics) -> Map.wf (fst (forEach throws entries this)).(metrics).
Proof.
induction entries as [|entry entries IH]; intros this Hwf; simpl; [exact Hwf|].
pose proof (sendStat_wf throws this entry Hwf) as H1.
destruct (sendStat throws this entry) as [this1 [|err]]; simpl in *; auto.
Qed.

(** Whatever updates and flush cycles an object goes through from its
    construction on, no key occurs twice in its ledger. *)
Lemma run_wf throws ops :
  forall this : StatsClient,
  Map.wf this.(metrics) -> Map.wf (run throws ops this).(metrics).
Proof.
unfold run.
induction ops as [|op ops IH]; intros this Hwf; simpl; [exact Hwf|].
apply IH. destruct op as [entries|]; simpl.
- now apply addOrUpdateMetrics_wf.
- now apply forEach_wf.
Qed.

Lemma fresh_wf : Map.wf fresh.(metrics).
Proof. constructor. Qed.

(** ** The kind of an entry *)

Lemma addOrUpdateMetrics_keeps_type entries (this : StatsClient) k e :
  Map.get k this.(metrics) = Some e ->
  exists e',
    Map.get k (addOrUpdateMetrics entries this).(metrics) = Some e'
    /\ e'.(type) = e.(type).
Proof.
intro H. rewrite get_addOrUpdateMetrics, H.
destruct (merged_onto_stored (updates_of k entries) e) as (e' & He & Ht & _).
eauto.
Qed.

Lemma sendStat_keeps_type throws (this : StatsClient) entry k e :
  Map.get k this.(metrics) = Some e ->
  exists e',
    Map.get k (fst (sendStat throws this entry)).(metrics) = Some e'
    /\ e'.(type) = e.(type).
Proof.
intro H. destruct entry as [k0 o0].
unfold sendStat, StatsD_call, resetIncrementMetric.
destruct o0.(type); simpl; [eauto|].
destruct (throws _ _); simpl; [eauto|].
destruct (Map.get k0 this.(metrics)) as [stored|] eqn:E; simpl; [|eauto].
rewrite Map_get_set. destruct (String.eqb k k0) eqn:Ek; [|eauto].
apply String.eqb_eq in Ek. subst k0.
eexists. split; [reflexivity|]. simpl. congruence.
Qed.

Lemma forEach_keeps_type throws entries :
  forall (this : StatsClient) k e,
  Map.get k this.(metrics) = Some e ->
  exists e',
    Map.get k (fst (forEach throws entries this)).(metrics) = Some e'
    /\ e'.(type) = e.(type).
Proof.
induction entries as [|entry entries IH]; intros this k e H; simpl; [eauto|].
destruct (sendStat_keeps_type throws this entry k e H) as (e1 & H1 & T1).
destruct (sendStat throws this entry) as [this1 [|err]]; simpl in *.
- destruct (IH this1 k e1 H1) as (e2 & H2 & T2). exists e2. split; congruence.
- eauto.
Qed.

Lemma run_keeps_type throws ops :
  forall (this : StatsClient) k e,
  Map.get k this.(metrics) = Some e ->
  exists e',
    Map.get k (run throws ops this).(metrics) = Some e'
    /\ e'.(type) = e.(type).
Proof.
unfold run.
induction ops as [|op ops IH]; intros this k e H; simpl; [eauto|].
assert (exists e1, Map.get k (step throws this op).(metrics) = Some e1
                   /\ e1.(type) = e.(type)) as (e1 & H1 & T1).
{ destruct op as [entries|]; simpl.
  - now apply addOrUpdateMetrics_keeps_type.
  - now apply forEach_keeps_type. }
destruct (IH _ k e1 H1) as (e2 & H2 & T2). exists e2. split; congruence.
Qed.

(** C9: the first update for an identity stores the kind it supplies;
    whatever updates and flush cycles follow, the entry keeps that kind;
    and a later update for the identity, of whatever kind, still has its
    value added to the stored one. *)
Theorem kind_fixed_at_first_insertion throws (this : StatsClient) (n : string)
  (o : MetricOptions) (ops : list Op) (n' : string) (o' : MetricOptions) :
  Map.get (customKey n o) this.(metrics) = None ->
  customKey n' o' = customKey n o ->
  let k := customKey n o in
  let inserted := addOrUpdateMetrics [(n, o)] this in
  let later := run throws ops inserted in
  (exists e, Map.get k inserted.(metrics) = Some e /\ e.(type) = o.(type))
  /\ exists e e',
       Map.get k later.(metrics) = Some e
       /\ e.(type) = o.(type)
       /\ Map.get k (addOrUpdateMetrics [(n', o')] later).(metrics) = Some e'
       /\ e'.(type) = o.(type)
       /\ e'.(value) = PrimFloat.add e.(value) o'.(value).
Proof.
intros Habsent Hsame k inserted later.
assert (Hins : Map.get k inserted.(metrics) = Some (merged None (n, o))).
{ unfold inserted, k. rewrite get_addOrUpdateMetrics. unfold updates_of. simpl.
  rewrite String.eqb_refl. simpl. now rewrite Habsent. }
split; [eexists; split; [exact Hins | reflexivity]|].
destruct (run_keeps_type throws ops inserted k _ Hins) as (e & He & Te).
fold later in He. simpl in Te.
exists e. eexists. split; [exact He|]. split; [exact Te|].
unfold k in *. rewrite <- Hsame in *.
rewrite get_update_one, He.
split; [reflexivity|]. simpl. auto.
Qed.

Lemma kind_fixed_at_first_insertion_witness :
  let inserted := addOrUpdateMetrics [("y", queueDepth 4)] fresh in
  let later :=
    run rejects_increments [Update [("y", queueDepth 7)]; Flush] inserted in
  (exists e,
     Map.get (customKey "y" (queueDepth 4)) inserted.(metrics) = Some e
     /\ e.(type) = GAUGE)
  /\ exists e e',
       Map.get (customKey "y" (queueDepth 4)) later.(metrics) = Some e
       /\ e.(type) = GAUGE
       /\ Map.get (customKey "y" (queueDepth 4))
            (addOrUpdateMetrics [("y", hits shard1 1)] later).(metrics) = Some e'
       /\ e'.(type) = GAUGE
       /\ e'.(value) = PrimFloat.add e.(value) 1.
Proof.
exact (kind_fixed_at_first_insertion rejects_increments fresh "y" (queueDepth 4)
         [Update [("y", queueDepth 7)]; Flush] "y" (hits shard1 1)
         eq_refl eq_refl).
Defined.

(** ** The identity is the name and the text of the tags *)

Lemma unquote_quote_char (c : ascii) (rest : string) :
  JSON.unquote_char (JSON.quote_char c ++ rest) = Some (c, rest).
Proof.
destruct c as [[] [] [] [] [] [] [] []]; reflexivity.
Qed.

Lemma unquote_dquote (rest : string) :
  JSON.unquote_char (String JSON.dquote rest) = None.
Proof. reflexivity. Qed.

(** A quoted text ends at its closing quote: what follows it can be told
    apart from it. *)
Lemma quote_chars_delimited (s1 : string) :
  forall s2 r1 r2,
  JSON.quote_chars s1 ++ String JSON.dquote r1 =
  JSON.quote_chars s2 ++ String JSON.dquote r2 ->
  s1 = s2 /\ r1 = r2.
Proof.
induction s1 as [|c1 s1 IH]; intros [|c2 s2] r1 r2; simpl; intro H.
- injection H as ->. auto.
- rewrite append_assoc in H.
  apply (f_equal JSON.unquote_char) in H.
  rewrite unquote_quote_char, unquote_dquote in H. discriminate.
- rewrite append_assoc in H.
  apply (f_equal JSON.unquote_char) in H.
  rewrite unquote_quote_char, unquote_dquote in H. discriminate.
- rewrite !append_assoc in H.
  apply (f_equal JSON.unquote_char) in H.
  rewrite !unquote_quote_char in H. injection H as -> H.
  destruct (IH _ _ _ H) as [-> ->]. auto.
Qed.

Lemma quote_delimited (s1 s2 r1 r2 : string) :
  JSON.quote s1 ++ r1 = JSON.quote s2 ++ r2 -> s1 = s2 /\ r1 = r2.
Proof.
unfold JSON.quote. simpl. rewrite !append_assoc. simpl.
intro H. injection H as H. now apply quote_chars_delimited.
Qed.

Lemma member_delimited (p1 p2 : string * string) (r1 r2 : string) :
  JSON.member p1 ++ r1 = JSON.member p2 ++ r2 -> p1 = p2 /\ r1 = r2.
Proof.
destruct p1 as [k1 v1], p2 as [k2 v2]. unfold JSON.member. simpl fst. simpl snd.
rewrite !append_assoc. intro H.
apply quote_delimited in H as [-> H].
apply append_cancel in H.
apply quote_delimited in H as [-> ->]. auto.
Qed.

Section Joined.
Context {A : Type}.
Variable f : A -> string.
Variable close : ascii.
Hypothesis f_delimited :
  forall a b r1 r2, f a ++ r1 = f b ++ r2 -> a = b /\ r1 = r2.
Hypothesis f_quoted : forall a, exists t, f a = String JSON.dquote t.
Hypothesis close_not_quote : close <> JSON.dquote.
Hypothesis close_not_comma : close <> ","%char.

Lemma join_cons (a : A) (l : list A) :
  JSON.join (map f (a :: l)) ++ String close "" =
  f a ++ match l with
         | [] => String close ""
         | _ :: _ => "," ++ JSON.join (map f l) ++ String close ""
         end.
Proof.
destruct l as [|b l]; [reflexivity|].
cbn [map JSON.join]. now rewrite !append_assoc.
Qed.

Lemma join_closed_inj (l1 : list A) :
  forall l2,
  JSON.join (map f l1) ++ String close "" = JSON.join (map f l2) ++ String close "" ->
  l1 = l2.
Proof.
induction l1 as [|a l1 IH]; intros [|b l2] H.
- reflexivity.
- rewrite join_cons in H. destruct (f_quoted b) as [t Ht]. rewrite Ht in H.
  simpl in H. injection H as H _. contradiction.
- rewrite join_cons in H. destruct (f_quoted a) as [t Ht]. rewrite Ht in H.
  simpl in H. injection H as H _. symmetry in H. contradiction.
- rewrite !join_cons in H. apply f_delimited in H as [-> H].
  f_equal. destruct l1 as [|a1 l1], l2 as [|b1 l2].
  + reflexivity.
  + simpl in H. injection H as H _. contradiction.
  + simpl in H. injection H as H _. symmetry in H. contradiction.
  + apply IH. simpl in H. injection H as H. exact H.
Qed.

End Joined.

Lemma stringify_inj (t1 t2 : option Tags) :
  concat_value "" (JSON.stringify t1) = concat_value "" (JSON.stringify t2) ->
  t1 = t2.
Proof.
destruct t1 as [[ps1|xs1]|], t2 as [[ps2|xs2]|]; simpl; intro H;
  try discriminate; try reflexivity.
- injection H as H. do 2 f_equal.
  apply (join_closed_inj JSON.member "}"%char); try exact H; try discriminate.
  + intros a b r1 r2. apply member_delimited.
  + intros [k v]. unfold JSON.member, JSON.quote. simpl. eauto.
- injection H as H. do 2 f_equal.
  apply (join_closed_inj JSON.quote "]"%char); try exact H; try discriminate.
  + intros a b r1 r2. apply quote_delimited.
  + intro a. unfold JSON.quote. eauto.
Qed.

Lemma customKey_eq_iff n o1 o2 :
  customKey n o1 = customKey n o2 <-> o1.(tags) = o2.(tags).
Proof.
split.
- unfold customKey, concat_value. intro H.
  apply append_cancel in H. now apply stringify_inj.
- unfold customKey. now intros ->.
Qed.

Lemma Map_get_none_absent {V : Type} k (m : Map.t V) :
  Map.get k m = None -> ~ In k (Map.keys m).
Proof.
intros H Hin. apply Map_has_In in Hin. rewrite Map_has_get, H in Hin.
discriminate.
Qed.

Lemma Map_set_absent {V : Type} k (v : V) (m : Map.t V) :
  Map.get k m = None -> Map.set k v m = (m ++ [(k, v)])%list.
Proof.
intro H. apply Map_get_none_absent in H.
rewrite <- (app_nil_r m) at 1. now rewrite Map_set_app_absent.
Qed.

Lemma Map_set_last {V : Type} k (v v' : V) (m : Map.t V) :
  Map.get k m = None ->
  Map.set k v' (m ++ [(k, v)])%list = (m ++ [(k, v')])%list.
Proof.
intro H. apply Map_get_none_absent in H.
rewrite Map_set_app_absent by exact H. simpl. now rewrite String.eqb_refl.
Qed.

(** C3, as amended: two updates with the same name resolve to the same
    identity exactly when their tags are the same value, which for two tag
    maps means the same pairs in the same property order. They are then
    merged into one entry; tag maps that differ, be it only in the order
    of their pairs, give two entries. *)
Theorem identity_follows_tag_order (this : StatsClient) (n : string)
  (o1 o2 : MetricOptions) :
  Map.get (customKey n o1) this.(metrics) = None ->
  Map.get (customKey n o2) this.(metrics) = None ->
  let after := update_calls [[(n, o1)]; [(n, o2)]] this in
  (customKey n o1 = customKey n o2 <-> o1.(tags) = o2.(tags))
  /\ (o1.(tags) = o2.(tags) ->
      after.(metrics) =
      (this.(metrics) ++
       [(customKey n o1,
         {| metricName := n; type := o1.(type);
            value := PrimFloat.add o1.(value) o2.(value);
            tags := Some (spread o2.(tags)) |})])%list)
  /\ (o1.(tags) <> o2.(tags) ->
      after.(metrics) =
      (this.(metrics) ++
       [(customKey n o1,
         {| metricName := n; type := o1.(type); value := o1.(value);
            tags := o1.(tags) |});
        (customKey n o2,
         {| metricName := n; type := o2.(type); value := o2.(value);
            tags := o2.(tags) |})])%list).
Proof.
intros H1 H2 after.
split; [apply customKey_eq_iff|].
unfold after, update_calls, addOrUpdateMetrics.
cbn [fold_left metrics with_metrics].
rewrite !addOrUpdateMetric_set. cbn [fst snd].
rewrite H1, (Map_set_absent _ _ _ H1).
rewrite Map_get_app, H2. simpl Map.get.
split; intro Ht.
- apply (customKey_eq_iff n) in Ht. rewrite <- Ht.
  rewrite String.eqb_refl. now rewrite (Map_set_last _ _ _ _ H1).
- assert (Hne : customKey n o2 <> customKey n o1).
  { intro E. apply Ht. symmetry. now apply (customKey_eq_iff n). }
  pose proof Hne as Hneb. apply String.eqb_neq in Hneb. rewrite Hneb.
  rewrite Map_set_absent.
  + now rewrite <- app_assoc.
  + rewrite Map_get_app, H2. simpl. now rewrite Hneb.
Qed.

Lemma identity_follows_tag_order_witness :
  (customKey "hits" (hits ab 1) = customKey "hits" (hits ab 2) <->
   Some ab = Some ab)
  /\ (Some ab = Some ab ->
      (update_calls [[("hits", hits ab 1)]; [("hits", hits ab 2)]]
         two_entries).(metrics) =
      (two_entries.(metrics) ++
       [(customKey "hits" (hits ab 1),
         {| metricName := "hits"; type := INCREMENT; value := 3;
            tags := Some ab |})])%list)
  /\ (Some ab <> Some ab ->
      (update_calls [[("hits", hits ab 1)]; [("hits", hits ab 2)]]
         two_entries).(metrics) =
      (two_entries.(metrics) ++
       [(customKey "hits" (hits ab 1), hits ab 1);
        (customKey "hits" (hits ab 2), hits ab 2)])%list).
Proof.
exact (identity_follows_tag_order two_entries "hits" (hits ab 1) (hits ab 2)
         eq_refl eq_refl).
Defined.

(** C3, as stated, fails: [{a: "1", b: "2"}] and [{b: "2", a: "1"}] hold
    the same pairs and give two identities. *)
Lemma tag_order_irrelevant_fails :
  ~ tag_order_irrelevant "hits" (hits ab 1) (hits ba 1).
Proof.
intro H.
specialize (H _ _ eq_refl eq_refl (perm_swap _ _ [])).
vm_compute in H. discriminate.
Qed.

(** ** Omitted tags and the empty tag map *)

(** C10: for every name, an update that leaves [tags] out and an update
    with the empty tag map resolve to two identities, and they are
    aggregated as two entries. After the two updates the ledger holds an
    entry under each key, made of the update for that key alone (merged
    into what the key held before, if it held something); when neither
    identity was stored, the two updates append two entries. *)
Theorem omitted_and_empty_tags_differ (this : StatsClient) (n : string)
  (o1 o2 : MetricOptions) :
  o1.(tags) = None ->
  o2.(tags) = Some (TagsObject []) ->
  let k1 := customKey n o1 in
  let k2 := customKey n o2 in
  let after := update_calls [[(n, o1)]; [(n, o2)]] this in
  k1 <> k2
  /\ Map.get k1 after.(metrics) =
     Some match Map.get k1 this.(metrics) with
          | Some stored =>
              {| metricName := n; type := stored.(type);
                 value := PrimFloat.add stored.(value) o1.(value);
                 tags := Some (TagsObject []) |}
          | None =>
              {| metricName := n; type := o1.(type); value := o1.(value);
                 tags := None |}
          end
  /\ Map.get k2 after.(metrics) =
     Some match Map.get k2 this.(metrics) with
          | Some stored =>
              {| metricName := n; type := stored.(type);
                 value := PrimFloat.add stored.(value) o2.(value);
                 tags := Some (TagsObject []) |}
          | None =>
              {| metricName := n; type := o2.(type); value := o2.(value);
                 tags := Some (TagsObject []) |}
          end
  /\ (Map.get k1 this.(metrics) = None ->
      Map.get k2 this.(metrics) = None ->
      after.(metrics) =
      (this.(metrics) ++
       [(k1, {| metricName := n; type := o1.(type); value := o1.(value);
                tags := None |});
        (k2, {| metricName := n; type := o2.(type); value := o2.(value);
                tags := Some (TagsObject []) |})])%list).
Proof.
intros H1 H2 k1 k2 after.
assert (Hne : k1 <> k2).
{ unfold k1, k2, customKey, concat_value. rewrite H1, H2. simpl.
  intro E. apply append_cancel in E. discriminate. }
assert (Hne' : k2 <> k1) by congruence.
pose proof Hne as Hb. apply String.eqb_neq in Hb.
pose proof Hne' as Hb'. apply String.eqb_neq in Hb'.
split; [exact Hne|].
split; [|split].
- unfold after. rewrite get_update_calls. unfold updates_of.
  cbn [map concat filter fst snd app]. fold k1 k2.
  rewrite String.eqb_refl, Hb. cbn [app fold_left].
  unfold merged. cbn [fst snd]. rewrite H1.
  destruct (Map.get k1 this.(metrics)); reflexivity.
- unfold after. rewrite get_update_calls. unfold updates_of.
  cbn [map concat filter fst snd app]. fold k1 k2.
  rewrite String.eqb_refl, Hb'. cbn [app fold_left].
  unfold merged. cbn [fst snd]. rewrite H2.
  destruct (Map.get k2 this.(metrics)); reflexivity.
- intros A1 A2.
  unfold after, update_calls, addOrUpdateMetrics.
  cbn [fold_left metrics with_metrics].
  rewrite !addOrUpdateMetric_set. cbn [fst snd]. fold k1 k2.
  rewrite A1, (Map_set_absent _ _ _ A1).
  rewrite Map_get_app, A2. cbn [Map.get]. rewrite Hb'.
  rewrite Map_set_absent.
  + unfold merged. cbn [fst snd]. rewrite H1, H2.
    now rewrite <- app_assoc.
  + rewrite Map_get_app, A2. cbn [Map.get]. now rewrite Hb'.
Qed.

Lemma omitted_and_empty_tags_differ_witness :
  let this := addOrUpdateMetrics [("queueDepth", queueDepth 4)] fresh in
  let after := update_calls [[("reqs", reqs 1)]; [("reqs", reqs_empty 2)]] this in
  "reqs/undefined" <> "reqs/{}"
  /\ Map.get "reqs/undefined" after.(metrics) = Some (reqs 1)
  /\ Map.get "reqs/{}" after.(metrics) = Some (reqs_empty 2)
  /\ after.(metrics) =
     [(customKey "queueDepth" (queueDepth 4), queueDepth 4);
      ("reqs/undefined", reqs 1);
      ("reqs/{}", reqs_empty 2)].
Proof.
intros this after.
destruct (omitted_and_empty_tags_differ this "reqs" (reqs 1) (reqs_empty 2)
            eq_refl eq_refl) as (Hkeys & Hfirst & Hsecond & Hboth).
split; [exact Hkeys|]. split; [exact Hfirst|]. split; [exact Hsecond|].
exact (Hboth eq_refl eq_refl).
Defined.

(** ** [init] *)

Lemma info_keeps l msg (p : Process) :
  (info l msg p).(instance) = p.(instance)
  /\ (info l msg p).(objects) = p.(objects)
  /\ (info l msg p).(timers) = p.(timers)
  /\ (info l msg p).(NODE_ENV) = p.(NODE_ENV).
Proof. destruct l; simpl; auto. Qed.

(** [init] on a process that has its instance. *)
Lemma init_existing (o : InitOptions) (p : Process) (i : nat) :
  p.(instance) = Some i ->
  snd (init o p) = (if truthy (designator o p) then Some i else None)
  /\ (fst (init o p)).(instance) = Some i
  /\ (fst (init o p)).(objects) = p.(objects)
  /\ (fst (init o p)).(timers) = p.(timers)
  /\ (fst (init o p)).(NODE_ENV) = p.(NODE_ENV).
Proof.
intro Hi. unfold init. fold (designator o p).
destruct (truthy (designator o p)).
- match goal with
  | |- context [info ?l ?msg p] =>
      destruct (info_keeps l msg p) as (Hinst & Hobj & Htim & Henv)
  end.
  cbv zeta. rewrite Hinst, Hi. cbn [fst snd]. rewrite Hinst, Hi. auto.
- destruct (info_keeps o.(opt_logger) NoInitialization p)
    as (Hinst & Hobj & Htim & Henv).
  simpl. rewrite Hinst, Hi. auto.
Qed.

(** The first [init] with a truthy designator builds one object with its
    ledger and client, and starts one timer. *)
Lemma init_first (o : InitOptions) (p : Process) :
  p.(instance) = None ->
  truthy (designator o p) = true ->
  let i := length p.(objects) in
  snd (init o p) = Some i
  /\ (fst (init o p)).(instance) = Some i
  /\ length (fst (init o p)).(objects) = S (length p.(objects))
  /\ length (fst (init o p)).(timers) = S (length p.(timers))
  /\ (fst (init o p)).(NODE_ENV) = p.(NODE_ENV).
Proof.
intros Hi Ht i. unfold init. fold (designator o p).
rewrite Ht.
match goal with
| |- context [info ?l ?msg p] =>
    destruct (info_keeps l msg p) as (Hinst & Hobj & Htim & Henv)
end.
cbv zeta. rewrite Hinst, Hi.
unfold new_StatsClient. cbn [fst snd instance objects timers NODE_ENV].
rewrite Hobj, Htim, !length_app. cbn [length].
repeat split; auto; lia.
Qed.

Lemma inits_existing (os : list InitOptions) :
  forall (p : Process) (i : nat),
  p.(instance) = Some i ->
  (inits os p).(instance) = Some i
  /\ (inits os p).(objects) = p.(objects)
  /\ (inits os p).(timers) = p.(timers)
  /\ (inits os p).(NODE_ENV) = p.(NODE_ENV).
Proof.
unfold inits.
induction os as [|o os IH]; intros p i Hi; simpl; [auto|].
destruct (init_existing o p i Hi) as (_ & Hinst & Hobj & Htim & Henv).
destruct (IH _ i Hinst) as (H1 & H2 & H3 & H4).
repeat split; congruence.
Qed.

(** C8, as amended: after a first [init] with a truthy designator has
    built the instance, and whatever [init] calls were made since, a
    later [init] returns that same instance when its designator (the
    argument, else [NODE_ENV]) is truthy and returns nothing when it is
    not; in both cases it builds no second object, with its ledger and
    client, and starts no second timer. *)
Theorem init_is_a_singleton (p : Process) (first : InitOptions)
  (between : list InitOptions) (later : InitOptions) :
  p.(instance) = None ->
  truthy (designator first p) = true ->
  let p1 := fst (init first p) in
  let p2 := inits between p1 in
  exists i,
    snd (init first p) = Some i
    /\ snd (init later p2) = (if truthy (designator later p2) then Some i else None)
    /\ (fst (init later p2)).(instance) = Some i
    /\ (fst (init later p2)).(objects) = p1.(objects)
    /\ (fst (init later p2)).(timers) = p1.(timers)
    /\ length p1.(objects) = S (length p.(objects))
    /\ length p1.(timers) = S (length p.(timers)).
Proof.
intros Hi Ht p1 p2.
destruct (init_first first p Hi Ht) as (Hr & Hinst & Hobj & Htim & _).
exists (length p.(objects)).
destruct (inits_existing between p1 _ Hinst) as (Hinst2 & Hobj2 & Htim2 & _).
fold p2 in Hinst2, Hobj2, Htim2.
destruct (init_existing later p2 _ Hinst2) as (Hr3 & Hinst3 & Hobj3 & Htim3 & _).
repeat split; try assumption; congruence.
Qed.

Lemma init_is_a_singleton_witness :
  let p1 := fst (init production off) in
  let p2 := inits [no_designator; production] p1 in
  exists i,
    snd (init production off) = Some i
    /\ snd (init no_designator p2) = None
    /\ (fst (init no_designator p2)).(instance) = Some i
    /\ (fst (init no_designator p2)).(objects) = p1.(objects)
    /\ (fst (init no_designator p2)).(timers) = p1.(timers)
    /\ length p1.(objects) = 1
    /\ length p1.(timers) = 1.
Proof.
exact (init_is_a_singleton off production [no_designator; production]
         no_designator eq_refl eq_refl).
Defined.

(** C8, as stated, fails: with the instance built, [init] with an empty
    designator returns nothing. *)
Lemma later_init_returns_instance_fails :
  ~ later_init_returns_instance off production no_designator.
Proof.
intro H. destruct (H eq_refl eq_refl) as (i & _ & Hlater).
vm_compute in Hlater. discriminate.
Qed.

(** * Further properties *)

(** ** The key tells the name and the tags apart *)

Lemma scan_app (a b : string) :
  forall st,
  scan st (a ++ b) =
  match scan st a with Some st' => scan st' b | None => None end.
Proof.
induction a as [|c a IH]; intro st; simpl; [reflexivity|].
destruct st; simpl; rewrite ?IH;
  repeat match goal with |- context [if ?x then _ else _] => destruct x end;
  reflexivity.
Qed.

Lemma scan_quote_char (c : ascii) (rest : string) :
  scan Inside (JSON.quote_char c ++ rest) = scan Inside rest.
Proof.
destruct c as [[] [] [] [] [] [] [] []]; reflexivity.
Qed.

Lemma scan_quote_chars (s rest : string) :
  scan Inside (JSON.quote_chars s ++ rest) = scan Inside rest.
Proof.
induction s as [|c s IH]; simpl; [reflexivity|].
now rewrite append_assoc, scan_quote_char.
Qed.

Lemma scan_quote (s rest : string) :
  scan Outside (JSON.quote s ++ rest) = scan Outside rest.
Proof.
unfold JSON.quote. cbn [append scan nat_of_ascii JSON.dquote].
change (Nat.eqb (nat_of_ascii JSON.dquote) 34) with true. cbv iota.
rewrite append_assoc, scan_quote_chars. reflexivity.
Qed.

Lemma scan_member (p : string * string) (rest : string) :
  scan Outside (JSON.member p ++ rest) = scan Outside rest.
Proof.
unfold JSON.member. rewrite !append_assoc, scan_quote.
change (":" ++ JSON.quote (snd p) ++ rest)
  with (String ":" (JSON.quote (snd p) ++ rest)).
cbn [scan]. change (Nat.eqb (nat_of_ascii ":") 34) with false.
change (structural ":") with true. cbv iota.
apply scan_quote.
Qed.

Lemma scan_join {A : Type} (f : A -> string) (l : list A) (rest : string) :
  (forall a r, scan Outside (f a ++ r) = scan Outside r) ->
  scan Outside (JSON.join (map f l) ++ rest) = scan Outside rest.
Proof.
intro Hf. induction l as [|a l IH]; [reflexivity|].
destruct l as [|b l]; [apply Hf|].
change (JSON.join (map f (a :: b :: l)))
  with (f a ++ "," ++ JSON.join (map f (b :: l))).
rewrite !append_assoc, Hf.
change ("," ++ JSON.join (map f (b :: l)) ++ rest)
  with (String "," (JSON.join (map f (b :: l)) ++ rest)).
cbn [scan]. change (Nat.eqb (nat_of_ascii ",") 34) with false.
change (structural ",") with true. cbv iota.
exact IH.
Qed.

(** A serialised tag value is read from outside to outside. *)
Lemma scan_stringify (t : Tags) (j : string) :
  JSON.stringify (Some t) = Some j -> scan Outside j = Some Outside.
Proof.
destruct t as [props|items]; unfold JSON.stringify; intros [= <-].
- change (scan Outside (String "{" (JSON.join (map JSON.member props) ++ "}"))
          = Some Outside).
  cbn [scan]. change (Nat.eqb (nat_of_ascii "{") 34) with false.
  change (structural "{") with true. cbv iota.
  rewrite (scan_join JSON.member props "}" scan_member). reflexivity.
- change (scan Outside (String "[" (JSON.join (map JSON.quote items) ++ "]"))
          = Some Outside).
  cbn [scan]. change (Nat.eqb (nat_of_ascii "[") 34) with false.
  change (structural "[") with true. cbv iota.
  rewrite (scan_join JSON.quote items "]" scan_quote). reflexivity.
Qed.

Lemma structural_not_backslash (c : ascii) :
  structural c = true -> Nat.eqb (nat_of_ascii c) 92 = false.
Proof.
unfold structural. intro H. apply Nat.eqb_neq. intro E. rewrite E in H.
discriminate.
Qed.

(** Two readers out of step stay out of step. *)
Lemma scan_out_of_step (s : string) :
  forall a b a' b',
  out_of_step a b = true ->
  scan a s = Some a' -> scan b s = Some b' ->
  out_of_step a' b' = true.
Proof.
induction s as [|c s IH]; intros a b a' b' Hab Ha Hb.
- simpl in Ha, Hb. injection Ha as <-. injection Hb as <-. exact Hab.
- destruct a, b; try discriminate; simpl in Ha, Hb.
  + destruct (Nat.eqb (nat_of_ascii c) 34).
    * exact (IH Inside Outside _ _ eq_refl Ha Hb).
    * destruct (structural c) eqn:Es; [|discriminate].
      rewrite (structural_not_backslash c Es) in Hb.
      exact (IH Outside Inside _ _ eq_refl Ha Hb).
  + destruct (Nat.eqb (nat_of_ascii c) 34).
    * exact (IH Outside Inside _ _ eq_refl Ha Hb).
    * destruct (structural c) eqn:Es; [|discriminate].
      rewrite (structural_not_backslash c Es) in Ha.
      exact (IH Inside Outside _ _ eq_refl Ha Hb).
Qed.

(** No serialised tag value ends with a slash and a serialised tag
    value. *)
Lemma stringify_not_after_slash (t1 t2 : Tags) (j1 j2 x : string) :
  JSON.stringify (Some t1) = Some j1 ->
  JSON.stringify (Some t2) = Some j2 ->
  j1 <> x ++ "/" ++ j2.
Proof.
intros H1 H2 E.
apply scan_stringify in H1. apply scan_stringify in H2.
rewrite E, scan_app in H1.
destruct (scan Outside x) as [st|]; [|discriminate].
assert (Hin : scan Inside j2 = Some Outside).
{ destruct st; simpl in H1; [discriminate | exact H1 | exact H1]. }
pose proof (scan_out_of_step j2 Inside Outside _ _ eq_refl Hin H2).
discriminate.
Qed.

Lemma undefined_has_no_slash (x y : string) : "undefined" <> x ++ "/" ++ y.
Proof.
intro H.
do 9 (destruct x as [|? x]; [discriminate | simpl in H; injection H as _ H]).
destruct x; discriminate.
Qed.

Lemma undefined_not_after_slash (t : Tags) (j x : string) :
  JSON.stringify (Some t) = Some j -> j <> x ++ "/" ++ "undefined".
Proof.
intros Hj E. apply scan_stringify in Hj.
rewrite E, scan_app in Hj.
destruct (scan Outside x) as [[| |]|]; simpl in Hj; discriminate.
Qed.

(** Two texts cut at a slash: the cuts agree, or one tail holds the other
    after a slash. *)
Lemma slash_split (n1 : string) :
  forall n2 j1 j2,
  n1 ++ "/" ++ j1 = n2 ++ "/" ++ j2 ->
  (n1 = n2 /\ j1 = j2)
  \/ (exists x, j1 = x ++ "/" ++ j2)
  \/ (exists x, j2 = x ++ "/" ++ j1).
Proof.
induction n1 as [|c n1 IH]; intros [|c2 n2] j1 j2 H.
- left. simpl in H. injection H as H. auto.
- right. left. simpl in H. injection H as _ H. eauto.
- right. right. simpl in H. injection H as _ H. eauto.
- simpl in H. injection H as -> H.
  destruct (IH _ _ _ H) as [[-> ->] | [Hx | Hx]]; auto.
Qed.

(** The text that [customKey] appends for a tag value. *)
Lemma customKey_text n o :
  customKey n o =
  n ++ "/" ++ match JSON.stringify o.(tags) with
              | Some t => t
              | None => "undefined"
              end.
Proof. unfold customKey, concat_value. apply append_assoc. Qed.

Lemma customKey_inj n1 o1 n2 o2 :
  customKey n1 o1 = customKey n2 o2 -> n1 = n2 /\ o1.(tags) = o2.(tags).
Proof.
intro H. pose proof H as H0. rewrite !customKey_text in H.
apply slash_split in H as [[-> _] | [[x Hx] | [x Hx]]].
- split; [reflexivity|]. now apply (customKey_eq_iff n2).
- exfalso. clear H0.
  destruct o1.(tags) as [t1|] eqn:E1, o2.(tags) as [t2|] eqn:E2.
  + destruct (JSON.stringify (Some t1)) as [j1|] eqn:S1;
      [|destruct t1; discriminate].
    destruct (JSON.stringify (Some t2)) as [j2|] eqn:S2;
      [|destruct t2; discriminate].
    exact (stringify_not_after_slash t1 t2 j1 j2 x S1 S2 Hx).
  + destruct (JSON.stringify (Some t1)) as [j1|] eqn:S1;
      [|destruct t1; discriminate].
    simpl in Hx. exact (undefined_not_after_slash t1 j1 x S1 Hx).
  + simpl in Hx. exact (undefined_has_no_slash _ _ Hx).
  + simpl in Hx. exact (undefined_has_no_slash _ _ Hx).
- exfalso. clear H0.
  destruct o1.(tags) as [t1|] eqn:E1, o2.(tags) as [t2|] eqn:E2.
  + destruct (JSON.stringify (Some t1)) as [j1|] eqn:S1;
      [|destruct t1; discriminate].
    destruct (JSON.stringify (Some t2)) as [j2|] eqn:S2;
      [|destruct t2; discriminate].
    exact (stringify_not_after_slash t2 t1 j2 j1 x S2 S1 Hx).
  + simpl in Hx. exact (undefined_has_no_slash _ _ Hx).
  + destruct (JSON.stringify (Some t2)) as [j2|] eqn:S2;
      [|destruct t2; discriminate].
    simpl in Hx. exact (undefined_not_after_slash t2 j2 x S2 Hx).
  + simpl in Hx. exact (undefined_has_no_slash _ _ Hx).
Qed.

(** X1: the key of an entry determines the batch key and the tags it was
    built from: two entries get the same key only when they have the same
    batch key and the same tags, also when the names hold slashes, quotes
    or braces. *)
Theorem customKey_injective (n1 n2 : string) (o1 o2 : MetricOptions) :
  customKey n1 o1 = customKey n2 o2 <-> n1 = n2 /\ o1.(tags) = o2.(tags).
Proof.
split.
- apply customKey_inj.
- intros [-> Ht]. now apply customKey_eq_iff.
Qed.

(** ** One update call *)

Lemma Permutation_filter_same {A : Type} (f : A -> bool) (l l' : list A) :
  Permutation l l' -> Permutation (filter f l) (filter f l').
Proof.
induction 1 as [|x l l' _ IH|x y l|l l' l'' _ IH1 _ IH2]; simpl.
- constructor.
- destruct (f x); [now constructor | exact IH].
- destruct (f x), (f y); try apply Permutation_refl.
  apply perm_swap.
- now apply (perm_trans IH1).
Qed.

(** With batch keys that differ, at most one entry of a batch resolves to
    a given identity. *)
Lemma updates_of_at_most_one k entries :
  NoDup (map fst entries) ->
  updates_of k entries = [] \/ exists e, updates_of k entries = [e].
Proof.
induction entries as [|e entries IH]; intro Hnd; [now left|].
inversion Hnd as [|? ? Hnotin Hnd']; subst.
unfold updates_of in *. simpl.
destruct (String.eqb k (customKey (fst e) (snd e))) eqn:E; [|auto].
right. exists e. f_equal.
destruct (filter _ entries) as [|e' rest] eqn:F; [reflexivity|].
exfalso. apply Hnotin.
assert (Hin : In e' (filter (fun e0 => String.eqb k (customKey (fst e0) (snd e0)))
                       entries)) by (rewrite F; now left).
apply filter_In in Hin as [Hin Hk].
apply String.eqb_eq in E. apply String.eqb_eq in Hk.
assert (Hfst : fst e = fst e').
{ apply (customKey_inj (fst e) (snd e) (fst e') (snd e')). congruence. }
rewrite Hfst. now apply in_map.
Qed.

(** X2: the entries of a [metrics] object have different keys, and the
    order in which they are listed does not matter for what is stored:
    under every key, the ledger holds the same entry whichever way the
    batch is ordered. *)
Theorem batch_order_irrelevant (this : StatsClient)
  (entries entries' : list (string * MetricOptions)) (k : string) :
  NoDup (map fst entries) ->
  Permutation entries entries' ->
  Map.get k (addOrUpdateMetrics entries' this).(metrics) =
  Map.get k (addOrUpdateMetrics entries this).(metrics).
Proof.
intros Hnd Hperm. rewrite !get_addOrUpdateMetrics.
pose proof (Permutation_filter_same
              (fun e => String.eqb k (customKey (fst e) (snd e))) _ _ Hperm)
  as Hf.
fold (updates_of k entries) in Hf. fold (updates_of k entries') in Hf.
destruct (updates_of_at_most_one k entries Hnd) as [E | [e E]]; rewrite E in *.
- now rewrite (Permutation_nil Hf).
- now rewrite (Permutation_length_1_inv Hf).
Qed.

Lemma batch_order_irrelevant_witness :
  Map.get "reqs/undefined"
    (addOrUpdateMetrics [("hits", hits ab 2); ("reqs", reqs 1)]
       two_entries).(metrics) =
  Map.get "reqs/undefined"
    (addOrUpdateMetrics [("reqs", reqs 1); ("hits", hits ab 2)]
       two_entries).(metrics).
Proof.
apply (batch_order_irrelevant two_entries
         [("reqs", reqs 1); ("hits", hits ab 2)]
         [("hits", hits ab 2); ("reqs", reqs 1)]).
- repeat constructor; simpl; intuition discriminate.
- apply perm_swap.
Defined.

(** X3: an update call leaves alone every identity that no entry of the
    batch names: when no entry has the batch key [name] together with the
    tags [o0.(tags)], the entry stored for that name and those tags is the
    same after the call as before. *)
Theorem update_leaves_other_identities (this : StatsClient)
  (entries : list (string * MetricOptions)) (name : string)
  (o0 : MetricOptions) :
  (forall n o, In (n, o) entries -> n = name -> o.(tags) <> o0.(tags)) ->
  Map.get (customKey name o0) (addOrUpdateMetrics entries this).(metrics) =
  Map.get (customKey name o0) this.(metrics).
Proof.
intro Hother. rewrite get_addOrUpdateMetrics.
replace (updates_of (customKey name o0) entries) with (@nil (string * MetricOptions));
  [reflexivity|].
symmetry. unfold updates_of.
induction entries as [|[n o] entries IH]; [reflexivity|].
simpl. destruct (String.eqb (customKey name o0) (customKey n o)) eqn:E.
- apply String.eqb_eq in E. apply customKey_inj in E as [-> Ht].
  exfalso. apply (Hother n o); [now left | reflexivity | congruence].
- apply IH. intros n' o' Hin. apply Hother. now right.
Qed.

Lemma update_leaves_other_identities_witness :
  Map.get (customKey "hits" (hits ab 0))
    (addOrUpdateMetrics [("hits", hits ba 1); ("reqs", reqs 1)]
       (addOrUpdateMetrics [("hits", hits ab 7)] fresh)).(metrics) =
  Map.get (customKey "hits" (hits ab 0))
    (addOrUpdateMetrics [("hits", hits ab 7)] fresh).(metrics).
Proof.
apply (update_leaves_other_identities
         (addOrUpdateMetrics [("hits", hits ab 7)] fresh)
         [("hits", hits ba 1); ("reqs", reqs 1)] "hits" (hits ab 0)).
intros n o [H | [H | []]] Hn; injection H as <- <-; discriminate.
Defined.

(** ** One flush cycle *)

Lemma sendStat_keys throws (this : StatsClient) entry :
  Map.keys (fst (sendStat throws this entry)).(metrics) = Map.keys this.(metrics).
Proof.
destruct entry as [k o].
unfold sendStat, StatsD_call, resetIncrementMetric.
destruct o.(type); simpl; [reflexivity|].
destruct (throws _ _); simpl; [reflexivity|].
destruct (Map.get k this.(metrics)) as [stored|] eqn:E; simpl; [|reflexivity].
rewrite Map_keys_set, Map_has_get, E. reflexivity.
Qed.

Lemma forEach_keys throws entries :
  forall this : StatsClient,
  Map.keys (fst (forEach throws entries this)).(metrics) = Map.keys this.(metrics).
Proof.
induction entries as [|entry entries IH]; intro this; simpl; [reflexivity|].
pose proof (sendStat_keys throws this entry) as H1.
destruct (sendStat throws this entry) as [this1 [|err]]; simpl in *.
- now rewrite IH.
- exact H1.
Qed.

Lemma addOrUpdateMetrics_keys entries (this : StatsClient) :
  exists added,
    Map.keys (addOrUpdateMetrics entries this).(metrics) =
    (Map.keys this.(metrics) ++ added)%list.
Proof.
unfold addOrUpdateMetrics. simpl. generalize this.(metrics) as m.
induction entries as [|e entries IH]; intro m; simpl.
- exists []. now rewrite app_nil_r.
- destruct (IH (addOrUpdateMetric m e)) as [added Hadded].
  rewrite Hadded, addOrUpdateMetric_set, Map_keys_set.
  destruct (Map.has _ m).
  + now exists added.
  + eexists. now rewrite <- app_assoc.
Qed.

(** X4: the ledger only grows, and at its end. A flush cycle, completed
    or not, leaves the keys as they are, in the same order; over any
    sequence of updates and flush cycles the keys that were there stay in
    place and new ones come after them. *)
Theorem ledger_only_grows throws (this : StatsClient) (ops : list Op) :
  Map.keys (fst (sendStats throws this)).(metrics) = Map.keys this.(metrics)
  /\ exists added,
       Map.keys (run throws ops this).(metrics) =
       (Map.keys this.(metrics) ++ added)%list.
Proof.
split; [apply forEach_keys|].
unfold run. revert this.
induction ops as [|op ops IH]; intro this; simpl.
- exists []. now rewrite app_nil_r.
- destruct (IH (step throws this op)) as [added Hadded]. rewrite Hadded.
  destruct op as [entries|]; cbn [step].
  + destruct (addOrUpdateMetrics_keys entries this) as [new Hnew].
    rewrite Hnew. eexists. now rewrite <- app_assoc.
  + unfold sendStats. rewrite forEach_keys. now exists added.
Qed.

Lemma sendStat_no_TypeError throws (this : StatsClient) entry :
  In (fst entry) (Map.keys this.(metrics)) ->
  snd (sendStat throws this entry) <> Throw TypeError.
Proof.
destruct entry as [k o]. simpl. intro Hin.
apply Map_has_In in Hin. rewrite Map_has_get in Hin.
unfold sendStat, StatsD_call, resetIncrementMetric.
destruct o.(type); simpl.
- destruct (throws _ _); discriminate.
- destruct (throws _ _); simpl; [discriminate|].
  destruct (Map.get k this.(metrics)); [discriminate | discriminate].
Qed.

Lemma forEach_no_TypeError throws entries :
  forall this : StatsClient,
  (forall e, In e entries -> In (fst e) (Map.keys this.(metrics))) ->
  snd (forEach throws entries this) <> Throw TypeError.
Proof.
induction entries as [|entry entries IH]; intros this Hin; simpl; [discriminate|].
pose proof (sendStat_no_TypeError throws this entry (Hin entry (or_introl eq_refl)))
  as H1.
pose proof (sendStat_keys throws this entry) as Hk.
destruct (sendStat throws this entry) as [this1 [|err]]; simpl in *.
- apply IH. intros e He. rewrite Hk. apply Hin. now right.
- exact H1.
Qed.

(** X5: the cast of [resetIncrementMetric] is safe. The entry it looks up
    is always there, so a flush cycle never ends in a [TypeError]: it
    completes, or it ends with the exception of the client. *)
Theorem flush_never_TypeError throws (this : StatsClient) :
  snd (sendStats throws this) = Normal
  \/ snd (sendStats throws this) = Throw TransportError.
Proof.
pose proof (forEach_no_TypeError throws (Map.entries this.(metrics)) this) as H.
unfold sendStats.
destruct (snd (forEach throws (Map.entries this.(metrics)) this)) as [|[|]];
  auto.
exfalso. apply H; [|reflexivity].
intros e He. unfold Map.entries in He. unfold Map.keys. now apply in_map.
Qed.

Lemma accepts_quiet throws entries :
  (forall h c, throws h c = false) ->
  forall h, accepts throws h entries = true.
Proof.
intro Hq. induction entries as [|e entries IH]; intro h; simpl; [reflexivity|].
now rewrite Hq, IH.
Qed.

Lemma flush_with_quiet_client_aux throws (this : StatsClient) :
  Map.wf this.(metrics) ->
  (forall h c, throws h c = false) ->
  sendStats throws this =
  (flush_state this (map flushed_entry this.(metrics))
     (this.(client).(calls) ++ emits this.(metrics))%list,
   Normal).
Proof.
intros Hwf Hq. apply sendStats_accepted; [exact Hwf|].
now apply accepts_quiet.
Qed.

(** X6: with a client that does not throw, a flush cycle completes; it
    hands the client one call per entry, in the order of the ledger (a
    [gauge] call for a gauge, an [increment] call otherwise, with the
    stored name and value and a copy of the tags), and it leaves every
    gauge as it is and every other entry at zero. *)
Theorem flush_with_quiet_client throws (this : StatsClient) :
  Map.wf this.(metrics) ->
  (forall h c, throws h c = false) ->
  sendStats throws this =
  (flush_state this (map flushed_entry this.(metrics))
     (this.(client).(calls) ++ emits this.(metrics))%list,
   Normal).
Proof.
exact (flush_with_quiet_client_aux throws this).
Qed.

Lemma flush_with_quiet_client_witness :
  sendStats never two_entries =
  (flush_state two_entries
     [(customKey "queueDepth" (queueDepth 4), queueDepth 4);
      ("reqs/undefined",
       {| metricName := "reqs"; type := INCREMENT; value := 0;
          tags := Some (TagsObject []) |})]
     [gauge "queueDepth" 4 shard1; increment "reqs" 5 (TagsObject [])],
   Normal).
Proof.
apply (flush_with_quiet_client never two_entries).
- apply addOrUpdateMetrics_wf, addOrUpdateMetrics_wf, fresh_wf.
- reflexivity.
Defined.

Lemma spread_spread (t : option Tags) : spread (Some (spread t)) = spread t.
Proof. destruct t as [[props|items]|]; reflexivity. Qed.

Lemma flushed_flushed o : flushed (flushed o) = flushed o.
Proof.
unfold flushed. destruct o.(type) eqn:E.
- now rewrite E.
- cbn [type metricName tags]. now rewrite spread_spread.
Qed.

Lemma flushed_entries_twice (m : MetricsSet) :
  map flushed_entry (map flushed_entry m) = map flushed_entry m.
Proof.
rewrite map_map. apply map_ext. intros [k o]. unfold flushed_entry. simpl.
now rewrite flushed_flushed.
Qed.

Lemma Map_keys_flushed (m : MetricsSet) :
  Map.keys (map flushed_entry m) = Map.keys m.
Proof. unfold Map.keys. rewrite map_map. reflexivity. Qed.

Lemma emit_of_flushed_counter o :
  o.(type) = INCREMENT ->
  emit_of (flushed o) = increment o.(metricName) 0 (spread o.(tags)).
Proof.
intro H. unfold emit_of, flushed. rewrite H.
cbn [type metricName value tags]. now rewrite spread_spread.
Qed.

(** X7: a counter that gets no update between two flush cycles is not
    skipped by the second one: with a client that does not throw, the
    second cycle makes a call for every entry again, with the value zero
    for every counter, and leaves the ledger as the first cycle left
    it. *)
Theorem second_flush_sends_zero throws (this : StatsClient) :
  Map.wf this.(metrics) ->
  (forall h c, throws h c = false) ->
  let once := fst (sendStats throws this) in
  let twice := fst (sendStats throws once) in
  twice.(metrics) = once.(metrics)
  /\ twice.(client).(calls) =
     (once.(client).(calls) ++ emits (map flushed_entry this.(metrics)))%list
  /\ forall k o,
       In (k, o) this.(metrics) ->
       o.(type) = INCREMENT ->
       In (increment o.(metricName) 0 (spread o.(tags)))
          (emits (map flushed_entry this.(metrics))).
Proof.
intros Hwf Hq once twice.
assert (Honce : once = flush_state this (map flushed_entry this.(metrics))
                         (this.(client).(calls) ++ emits this.(metrics))%list).
{ unfold once. now rewrite (flush_with_quiet_client_aux throws this Hwf Hq). }
assert (Hwf1 : Map.wf once.(metrics)).
{ rewrite Honce. unfold Map.wf. simpl. now rewrite Map_keys_flushed. }
unfold twice. rewrite (flush_with_quiet_client_aux throws once Hwf1 Hq).
rewrite Honce. simpl. rewrite flushed_entries_twice.
repeat split.
intros k o Hin Hkind.
rewrite <- (emit_of_flushed_counter o Hkind).
unfold emits. rewrite map_map.
apply (in_map (fun e => emit_of (snd (flushed_entry e))) _ (k, o) Hin).
Qed.

Lemma second_flush_sends_zero_witness :
  let once := fst (sendStats never two_entries) in
  let twice := fst (sendStats never once) in
  twice.(metrics) = once.(metrics)
  /\ twice.(client).(calls) =
     [gauge "queueDepth" 4 shard1; increment "reqs" 5 (TagsObject []);
      gauge "queueDepth" 4 shard1; increment "reqs" 0 (TagsObject [])]
  /\ forall k o,
       In (k, o) two_entries.(metrics) ->
       o.(type) = INCREMENT ->
       In (increment o.(metricName) 0 (spread o.(tags)))
          (emits (map flushed_entry two_entries.(metrics))).
Proof.
apply (second_flush_sends_zero never two_entries).
- apply addOrUpdateMetrics_wf, addOrUpdateMetrics_wf, fresh_wf.
- reflexivity.
Defined.

Lemma firstn_length_app {A : Type} (a b : list A) :
  firstn (length a) (a ++ b) = a.
Proof. induction a as [|x a IH]; simpl; [now destruct b | now rewrite IH]. Qed.

Lemma skipn_length_app {A : Type} (a b : list A) :
  skipn (length a) (a ++ b) = b.
Proof. induction a as [|x a IH]; simpl; [reflexivity | exact IH]. Qed.

Lemma firstn_S_length_app {A : Type} (a : list A) (x : A) (b : list A) :
  firstn (S (length a)) (a ++ x :: b) = (a ++ [x])%list.
Proof.
induction a as [|y a IH]; simpl; [now destruct b|].
f_equal. exact IH.
Qed.

(** X8: whatever the client does, a flush cycle deals with a front part
    of the ledger and with nothing else. For some [n], the first [n]
    entries are flushed (gauges as they were, the others at zero) and the
    entries after them are untouched; the calls made are those of the
    first [n + 1] entries, in order; and the cycle completes exactly when
    [n] is the size of the ledger. *)
Theorem flush_resets_a_prefix throws (this : StatsClient) :
  Map.wf this.(metrics) ->
  exists n,
    n <= length this.(metrics)
    /\ (fst (sendStats throws this)).(metrics) =
       (map flushed_entry (firstn n this.(metrics)) ++ skipn n this.(metrics))%list
    /\ (fst (sendStats throws this)).(client).(calls) =
       (this.(client).(calls) ++ emits (firstn (S n) this.(metrics)))%list
    /\ (snd (sendStats throws this) = Normal <-> n = length this.(metrics)).
Proof.
intro Hwf.
destruct (accepts_or_first_throw throws this.(metrics) this.(client).(calls))
  as [Hacc | (pre & k & o & post & Hm & Hacc & Hthrow)].
- exists (length this.(metrics)).
  rewrite (sendStats_accepted _ _ Hwf Hacc).
  unfold flush_state. cbn [fst snd metrics client calls].
  rewrite firstn_all, skipn_all, app_nil_r.
  rewrite firstn_all2 by lia. repeat split; auto.
- exists (length pre).
  rewrite (sendStats_thrown _ _ _ _ _ _ Hwf Hm Hacc Hthrow).
  unfold flush_state. cbn [fst snd metrics client calls].
  rewrite Hm, firstn_length_app, skipn_length_app, firstn_S_length_app.
  rewrite length_app. cbn [length]. unfold emits. rewrite map_app. cbn [map].
  repeat split; try lia; try discriminate; auto.
Qed.

Lemma flush_resets_a_prefix_witness :
  exists n,
    n <= 2
    /\ (fst (sendStats rejects_increments two_entries)).(metrics) =
       (map flushed_entry (firstn n two_entries.(metrics))
        ++ skipn n two_entries.(metrics))%list
    /\ (fst (sendStats rejects_increments two_entries)).(client).(calls) =
       ([] ++ emits (firstn (S n) two_entries.(metrics)))%list
    /\ (snd (sendStats rejects_increments two_entries) = Normal <-> n = 2).
Proof.
apply (flush_resets_a_prefix rejects_increments two_entries).
apply addOrUpdateMetrics_wf, addOrUpdateMetrics_wf, fresh_wf.
Defined.

(** X9: nothing is lost when an emit throws. The entry whose emit threw
    keeps its value, and the next flush cycle, with a client that takes
    every call, makes the same call for it again; before it come the
    calls of the entries the failed cycle had dealt with (zero for the
    counters), after it those of the entries it had not reached. *)
Theorem failed_emit_is_sent_again throws quiet (this : StatsClient)
  (pre : list (string * MetricOptions)) (k : string) (o : MetricOptions)
  (post : list (string * MetricOptions)) :
  Map.wf this.(metrics) ->
  this.(metrics) = (pre ++ (k, o) :: post)%list ->
  accepts throws this.(client).(calls) pre = true ->
  throws (this.(client).(calls) ++ emits pre)%list (emit_of o) = true ->
  (forall h c, quiet h c = false) ->
  let failed := fst (sendStats throws this) in
  Map.get k failed.(metrics) = Some o
  /\ sendStats quiet failed =
     (flush_state this (map flushed_entry this.(metrics))
        (failed.(client).(calls)
         ++ emits (map flushed_entry pre) ++ emit_of o :: emits post)%list,
      Normal).
Proof.
intros Hwf Hm Hacc Hthrow Hq failed.
assert (Hwf1 : Map.wf failed.(metrics)) by now apply forEach_wf.
assert (Hfailed : failed =
          flush_state this (map flushed_entry pre ++ (k, o) :: post)%list
            (this.(client).(calls) ++ emits pre ++ [emit_of o])%list).
{ unfold failed. now rewrite (sendStats_thrown _ _ _ _ _ _ Hwf Hm Hacc Hthrow). }
split.
- rewrite Hfailed. simpl. rewrite Map_get_app, Map_get_flushed.
  assert (Hk : Map.get k pre = None).
  { apply Map_get_absent. intro Hin.
    unfold Map.wf, Map.keys in Hwf. rewrite Hm, map_app in Hwf. simpl in Hwf.
    apply NoDup_remove_2 in Hwf. apply Hwf. apply in_or_app. now left. }
  rewrite Hk. simpl. now rewrite String.eqb_refl.
- rewrite (flush_with_quiet_client_aux quiet failed Hwf1 Hq).
  rewrite Hfailed. unfold flush_state, emits.
  cbn [metrics client calls protocol interval logger].
  rewrite Hm, !map_app. cbn [map].
  now rewrite flushed_entries_twice.
Qed.

Lemma failed_emit_is_sent_again_witness :
  let failed := fst (sendStats rejects_increments two_entries) in
  Map.get "reqs/undefined" failed.(metrics) = Some (reqs 5)
  /\ sendStats never failed =
     (flush_state two_entries (map flushed_entry two_entries.(metrics))
        [gauge "queueDepth" 4 shard1; increment "reqs" 5 (TagsObject []);
         gauge "queueDepth" 4 shard1; increment "reqs" 5 (TagsObject [])],
      Normal).
Proof.
apply (failed_emit_is_sent_again rejects_increments never two_entries
         [(customKey "queueDepth" (queueDepth 4), queueDepth 4)]
         "reqs/undefined" (reqs 5) []).
- apply addOrUpdateMetrics_wf, addOrUpdateMetrics_wf, fresh_wf.
- reflexivity.
- reflexivity.
- reflexivity.
- reflexivity.
Defined.

(** ** Updates and flush cycles together *)

Lemma sendStats_keeps_gauge throws (this : StatsClient) k e :
  Map.wf this.(metrics) ->
  Map.get k this.(metrics) = Some e ->
  e.(type) = GAUGE ->
  Map.get k (fst (sendStats throws this)).(metrics) = Some e.
Proof.
intros Hwf Hget Hkind.
destruct (accepts_or_first_throw throws this.(metrics) this.(client).(calls))
  as [Hacc | (pre & k' & o' & post & Hm & Hacc & Hthrow)].
- rewrite (sendStats_accepted _ _ Hwf Hacc). simpl.
  rewrite Map_get_flushed, Hget. simpl. now rewrite flushed_gauge.
- rewrite (sendStats_thrown _ _ _ _ _ _ Hwf Hm Hacc Hthrow). simpl.
  rewrite Hm, Map_get_app in Hget.
  rewrite Map_get_app, Map_get_flushed.
  destruct (Map.get k pre) as [o|].
  + injection Hget as ->. simpl. now rewrite flushed_gauge.
  + exact Hget.
Qed.

Lemma number_sum_app (v : number) (a b : list number) :
  number_sum v (a ++ b) = number_sum (number_sum v a) b.
Proof. unfold number_sum. apply fold_left_app. Qed.

(** X10: a gauge is never reset. Over any sequence of updates and flush
    cycles, whatever the client does, the value of a stored gauge is the
    stored value with the values of all later updates for its identity
    added to it in order: the flush cycles in between change nothing. *)
Theorem gauge_sums_across_flushes throws (ops : list Op) :
  forall (this : StatsClient) (k : string) (e : MetricOptions),
  Map.wf this.(metrics) ->
  Map.get k this.(metrics) = Some e ->
  e.(type) = GAUGE ->
  exists e',
    Map.get k (run throws ops this).(metrics) = Some e'
    /\ e'.(type) = GAUGE
    /\ e'.(value) = number_sum e.(value) (values (updates_in k ops)).
Proof.
unfold run.
induction ops as [|op ops IH]; intros this k e Hwf Hget Hkind.
- exists e. auto.
- destruct op as [entries|]; cbn [fold_left step updates_in].
  + destruct (merged_onto_stored (updates_of k entries) e) as (e1 & H1 & T1 & V1).
    assert (Hget1 : Map.get k (addOrUpdateMetrics entries this).(metrics) = Some e1)
      by now rewrite get_addOrUpdateMetrics, Hget.
    destruct (IH _ k e1 (addOrUpdateMetrics_wf entries this Hwf) Hget1)
      as (e' & H' & T' & V'); [congruence|].
    exists e'. repeat split; auto.
    unfold values in *. now rewrite map_app, number_sum_app, <- V1.
  + apply IH.
    * now apply forEach_wf.
    * now apply sendStats_keeps_gauge.
    * exact Hkind.
Qed.

Lemma gauge_sums_across_flushes_witness :
  exists e',
    Map.get (customKey "queueDepth" (queueDepth 4))
      (run never
         [Update [("queueDepth", queueDepth 7)]; Flush;
          Update [("reqs", reqs 1); ("queueDepth", queueDepth 1)]; Flush]
         two_entries).(metrics) = Some e'
    /\ e'.(type) = GAUGE
    /\ e'.(value) = 12%float.
Proof.
apply (gauge_sums_across_flushes never
         [Update [("queueDepth", queueDepth 7)]; Flush;
          Update [("reqs", reqs 1); ("queueDepth", queueDepth 1)]; Flush]
         two_entries (customKey "queueDepth" (queueDepth 4)) (queueDepth 4)).
- apply addOrUpdateMetrics_wf, addOrUpdateMetrics_wf, fresh_wf.
- reflexivity.
- reflexivity.
Defined.

(** X11: a counter starts again from zero after a flush cycle that
    completed: the updates that follow, with no flush in between, leave it
    at zero plus their values, added in order, whatever it had counted
    before the cycle. *)
Theorem counter_sums_since_flush throws (this flushed_this : StatsClient)
  (k : string) (e : MetricOptions)
  (batches : list (list (string * MetricOptions))) :
  Map.wf this.(metrics) ->
  sendStats throws this = (flushed_this, Normal) ->
  Map.get k this.(metrics) = Some e ->
  e.(type) = INCREMENT ->
  exists e',
    Map.get k (update_calls batches flushed_this).(metrics) = Some e'
    /\ e'.(type) = INCREMENT
    /\ e'.(value) =
       number_sum 0 (values (concat (map (updates_of k) batches))).
Proof.
intros Hwf Hrun Hget Hkind.
assert (Hflushed : Map.get k flushed_this.(metrics) = Some (flushed e)).
{ destruct (accepts_or_first_throw throws this.(metrics) this.(client).(calls))
    as [Hacc | (pre & k' & o' & post & Hm & Hacc & Hthrow)].
  - rewrite (sendStats_accepted _ _ Hwf Hacc) in Hrun.
    injection Hrun as <-. simpl. now rewrite Map_get_flushed, Hget.
  - rewrite (sendStats_thrown _ _ _ _ _ _ Hwf Hm Hacc Hthrow) in Hrun.
    discriminate. }
destruct (updates_sum_onto_stored flushed_this k batches _ Hflushed)
  as (e' & H' & T' & V').
exists e'. split; [exact H'|]. split.
- now rewrite T', flushed_type.
- now rewrite V', (flushed_counter e Hkind).
Qed.

Lemma counter_sums_since_flush_witness :
  exists e',
    Map.get "reqs/undefined"
      (update_calls [[("reqs", reqs 2)]; [("reqs", reqs 3)]]
         (fst (sendStats never two_entries))).(metrics) = Some e'
    /\ e'.(type) = INCREMENT
    /\ e'.(value) = 5%float.
Proof.
apply (counter_sums_since_flush never two_entries
         (fst (sendStats never two_entries)) "reqs/undefined" (reqs 5)
         [[("reqs", reqs 2)]; [("reqs", reqs 3)]]).
- apply addOrUpdateMetrics_wf, addOrUpdateMetrics_wf, fresh_wf.
- reflexivity.
- reflexivity.
- reflexivity.
Defined.

(** ** The name a call carries *)

Lemma Map_get_In {V : Type} k (v : V) (m : Map.t V) :
  Map.get k m = Some v -> In (k, v) m.
Proof.
induction m as [|[k' v'] m IH]; simpl; [discriminate|].
destruct (String.eqb k k') eqn:E.
- apply String.eqb_eq in E. intros [= ->]. subst. now left.
- intro H. right. auto.
Qed.

Lemma Forall_Map_set {V : Type} (P : string * V -> Prop) k v (m : Map.t V) :
  Forall P m -> P (k, v) -> Forall P (Map.set k v m).
Proof.
intros Hm Hkv. induction m as [|[k' v'] m IH]; simpl.
- now constructor.
- inversion Hm as [|? ? Hhead Htail]; subst.
  destruct (String.eqb k k'); constructor; auto.
Qed.

Lemma keyed_merged stored n o : keyed (customKey n o, merged stored (n, o)).
Proof.
exists o.(tags). unfold customKey, merged.
destruct stored; reflexivity.
Qed.

Lemma keyed_flushed e : keyed e -> keyed (flushed_entry e).
Proof.
destruct e as [k o]. intros (t & Hk). exists t.
unfold flushed_entry, flushed. cbn [fst snd] in *.
destruct o.(type); exact Hk.
Qed.

Lemma addOrUpdateMetrics_keyed entries (this : StatsClient) :
  Forall keyed this.(metrics) ->
  Forall keyed (addOrUpdateMetrics entries this).(metrics).
Proof.
unfold addOrUpdateMetrics. simpl. generalize this.(metrics) as m.
induction entries as [|[n o] entries IH]; intros m Hm; [exact Hm|].
cbn [fold_left]. apply IH. rewrite addOrUpdateMetric_set.
apply Forall_Map_set; [exact Hm | apply keyed_merged].
Qed.

Lemma sendStats_keyed throws (this : StatsClient) :
  Map.wf this.(metrics) ->
  Forall keyed this.(metrics) ->
  Forall keyed (fst (sendStats throws this)).(metrics).
Proof.
intros Hwf Hm.
destruct (accepts_or_first_throw throws this.(metrics) this.(client).(calls))
  as [Hacc | (pre & k' & o' & post & Hpre & Hacc & Hthrow)].
- rewrite (sendStats_accepted _ _ Hwf Hacc). simpl.
  apply Forall_map. revert Hm. apply Forall_impl. apply keyed_flushed.
- rewrite (sendStats_thrown _ _ _ _ _ _ Hwf Hpre Hacc Hthrow). simpl.
  rewrite Hpre in Hm. apply Forall_app in Hm as [H1 H2].
  apply Forall_app. split; [|exact H2].
  apply Forall_map. revert H1. apply Forall_impl. apply keyed_flushed.
Qed.

Lemma run_keyed throws ops :
  forall this : StatsClient,
  Map.wf this.(metrics) ->
  Forall keyed this.(metrics) ->
  Forall keyed (run throws ops this).(metrics).
Proof.
unfold run.
induction ops as [|op ops IH]; intros this Hwf Hm; simpl; [exact Hm|].
apply IH.
- destruct op as [entries|]; simpl.
  + now apply addOrUpdateMetrics_wf.
  + now apply forEach_wf.
- destruct op as [entries|]; cbn [step].
  + now apply addOrUpdateMetrics_keyed.
  + now apply sendStats_keyed.
Qed.

(** X12: the name of a call is the name in the key. In the ledger of an
    object, after any updates and flush cycles since its construction,
    whatever the client does, the key of every entry is the name the call
    for that entry carries, followed by a slash and the JSON text of a
    tags value: neither a merge nor the reset of a counter lets the stored
    name drift from the key. *)
Theorem call_name_matches_key throws (ops : list Op) (k : string)
  (e : MetricOptions) :
  Map.get k (run throws ops fresh).(metrics) = Some e ->
  exists t : option Tags,
    k = concat_value (stat_of (emit_of e) ++ "/") (JSON.stringify t).
Proof.
intro Hget. apply Map_get_In in Hget.
pose proof (run_keyed throws ops fresh fresh_wf (Forall_nil _)) as Hall.
rewrite Forall_forall in Hall.
destruct (Hall _ Hget) as (t & Hk). simpl in Hk.
exists t. unfold emit_of. destruct e.(type); exact Hk.
Qed.

Lemma call_name_matches_key_witness :
  exists t : option Tags,
    "reqs/undefined" =
    concat_value
      (stat_of (emit_of {| metricName := "reqs"; type := INCREMENT; value := 10;
                           tags := Some (TagsObject []) |}) ++ "/")
      (JSON.stringify t).
Proof.
apply (call_name_matches_key rejects_increments
         [Update [("queueDepth", queueDepth 4)]; Update [("reqs", reqs 5)];
          Flush; Update [("reqs", reqs 5)]; Flush]
         "reqs/undefined"
         {| metricName := "reqs"; type := INCREMENT; value := 10;
            tags := Some (TagsObject []) |}).
reflexivity.
Defined.

(** ** More on [init] *)

Lemma init_disabled_aux (o : InitOptions) (p : Process) :
  truthy (designator o p) = false ->
  snd (init o p) = None
  /\ (fst (init o p)).(instance) = p.(instance)
  /\ (fst (init o p)).(objects) = p.(objects)
  /\ (fst (init o p)).(timers) = p.(timers)
  /\ (fst (init o p)).(NODE_ENV) = p.(NODE_ENV).
Proof.
intro Ht. unfold init. fold (designator o p). rewrite Ht.
destruct (info_keeps o.(opt_logger) NoInitialization p)
  as (Hinst & Hobj & Htim & Henv).
cbn [fst snd]. auto.
Qed.

(** X13: metrics are switched off by a designator that is missing or
    empty: [init] then returns nothing, builds no object and starts no
    timer, and it leaves the instance as it is, be there one or not. *)
Theorem init_without_designator (o : InitOptions) (p : Process) :
  truthy (designator o p) = false ->
  snd (init o p) = None
  /\ (fst (init o p)).(instance) = p.(instance)
  /\ (fst (init o p)).(objects) = p.(objects)
  /\ (fst (init o p)).(timers) = p.(timers).
Proof.
intro Ht.
destruct (init_disabled_aux o p Ht) as (H1 & H2 & H3 & H4 & _). auto.
Qed.

Lemma init_without_designator_witness :
  snd (init no_designator off) = None
  /\ (fst (init no_designator off)).(instance) = None
  /\ (fst (init no_designator off)).(objects) = []
  /\ (fst (init no_designator off)).(timers) = [].
Proof.
exact (init_without_designator no_designator off eq_refl).
Defined.

Lemma init_NODE_ENV (o : InitOptions) (p : Process) :
  (fst (init o p)).(NODE_ENV) = p.(NODE_ENV).
Proof.
destruct (truthy (designator o p)) eqn:Ht.
- destruct p.(instance) as [i|] eqn:Hi.
  + now destruct (init_existing o p i Hi) as (_ & _ & _ & _ & H).
  + now destruct (init_first o p Hi Ht) as (_ & _ & _ & _ & H).
- now destruct (init_disabled_aux o p Ht) as (_ & _ & _ & _ & H).
Qed.

Lemma designator_NODE_ENV (o : InitOptions) (p q : Process) :
  q.(NODE_ENV) = p.(NODE_ENV) -> designator o q = designator o p.
Proof. unfold designator. now intros ->. Qed.

Lemma existsb_same {A : Type} (f g : A -> bool) (l : list A) :
  (forall a, f a = g a) -> existsb f l = existsb g l.
Proof.
intro H. induction l as [|a l IH]; simpl; [reflexivity|].
now rewrite H, IH.
Qed.

(** X14: however many times [init] is called in a process that has no
    instance yet, at most one object and one timer are built: exactly one
    of each, with the instance set, when some call has a truthy
    designator, and none when no call has. *)
Theorem inits_build_at_most_one (os : list InitOptions) :
  forall p : Process,
  p.(instance) = None ->
  let q := inits os p in
  if existsb (fun o => truthy (designator o p)) os
  then q.(instance) = Some (length p.(objects))
       /\ length q.(objects) = S (length p.(objects))
       /\ length q.(timers) = S (length p.(timers))
  else q.(instance) = None
       /\ q.(objects) = p.(objects)
       /\ q.(timers) = p.(timers).
Proof.
unfold inits.
induction os as [|o os IH]; intros p Hi; cbn [existsb fold_left orb]; [auto|].
destruct (truthy (designator o p)) eqn:Ht; cbn [orb].
- destruct (init_first o p Hi Ht) as (_ & Hinst & Hobj & Htim & _).
  destruct (inits_existing os (fst (init o p)) _ Hinst) as (H1 & H2 & H3 & _).
  unfold inits in *. rewrite H1, H2, H3. auto.
- destruct (init_disabled_aux o p Ht) as (_ & Hinst & Hobj & Htim & Henv).
  rewrite Hi in Hinst. specialize (IH (fst (init o p)) Hinst).
  rewrite (existsb_same _ (fun o' => truthy (designator o' p))) in IH.
  + rewrite Hobj, Htim in IH. exact IH.
  + intro o'. now rewrite (designator_NODE_ENV o' p _ Henv).
Qed.

Lemma inits_build_at_most_one_witness :
  (inits [no_designator; production; production; no_designator] off).(instance)
  = Some 0
  /\ length (inits [no_designator; production; production; no_designator]
               off).(objects) = 1
  /\ length (inits [no_designator; production; production; no_designator]
               off).(timers) = 1.
Proof.
exact (inits_build_at_most_one
         [no_designator; production; production; no_designator] off eq_refl).
Defined.

(** X15: what the first [init] with a truthy designator sets up. The
    object it builds has an empty ledger and a client on which no call was
    made, with the [uds] protocol exactly when the designator is the text
    [production]; the one timer it starts is for that object, with the
    interval of the argument, or ten minutes when the argument has
    none. *)
Theorem first_init_setup (o : InitOptions) (p : Process) (env : string) :
  p.(instance) = None ->
  designator o p = Some env ->
  env <> "" ->
  let q := fst (init o p) in
  q.(objects) =
    (p.(objects) ++
     [{| interval := Some (length p.(timers));
         metrics := Map.empty;
         client := {| protocol := if String.eqb env "production"
                                  then Some "uds" else None;
                      calls := [] |};
         logger := o.(opt_logger) |}])%list
  /\ q.(timers) = (p.(timers) ++ [(length p.(objects), delay o)])%list
  /\ q.(instance) = Some (length p.(objects)).
Proof.
intros Hi Hd Hne q. unfold q, init. fold (designator o p). rewrite Hd.
assert (Ht : truthy (Some env) = true).
{ simpl. apply negb_true_iff. now apply String.eqb_neq. }
rewrite Ht.
match goal with
| |- context [info ?l ?msg p] =>
    destruct (info_keeps l msg p) as (Hinst & Hobj & Htim & Henv)
end.
cbv zeta. rewrite Hinst, Hi.
unfold new_StatsClient. cbn [fst snd instance objects timers].
rewrite Hobj, Htim. unfold delay.
split; [reflexivity|]. split; reflexivity.
Qed.

Lemma first_init_setup_witness :
  (fst (init production off)).(objects) =
    [{| interval := Some 0; metrics := Map.empty;
        client := {| protocol := Some "uds"; calls := [] |};
        logger := None |}]
  /\ (fst (init production off)).(timers) = [(0, 600000%float)]
  /\ (fst (init production off)).(instance) = Some 0.
Proof.
apply (first_init_setup production off "production").
- reflexivity.
- reflexivity.
- discriminate.
Defined.

(** X16: every [init] call that is given a logger makes one [info] call on
    it, and a call without a logger makes none: the notice of an
    initialisation when the designator is truthy, also when the instance
    was there already and nothing is built, and the notice of no
    initialisation otherwise. *)
Theorem init_logs_one_notice (o : InitOptions) (p : Process) :
  (fst (init o p)).(infos) =
  (p.(infos) ++
   match o.(opt_logger) with
   | Some l =>
       [(l, if truthy (designator o p)
            then Initialization (designator o p) (delay o)
            else NoInitialization)]
   | None => []
   end)%list.
Proof.
unfold init, delay. fold (designator o p).
destruct (truthy (designator o p)).
- destruct o.(opt_logger) as [l|]; cbn [info instance infos];
    destruct p.(instance); unfold new_StatsClient; cbn [fst infos];
    rewrite ?app_nil_r; try reflexivity;
    destruct o.(timerInMs); reflexivity.
- destruct o.(opt_logger) as [l|]; cbn [info fst infos];
    now rewrite ?app_nil_r.
Qed.
